(** * Carbon credit marketplace: the PyTeal contract as a state machine

    A shallow embedding of [src/contracts/carbon-marketplace.py].  The
    contract is a PyTeal [Router] with seven ABI methods and three bare
    calls (opt-in, close-out, clear-state).  One call is one application
    call transaction: it runs against the application's global key/value
    store and the local stores of the accounts that have opted in, and either
    is approved (all writes are committed) or is rejected (no write is kept).

    What is modelled, and how:
    - TEAL values are [uint64] or byte strings; byte strings are [string]
      (a list of 8-bit characters), [Concat] is append and [Itob] the 8-byte
      big-endian encoding;
    - [App.globalGet] returns [Int(0)] for an absent key; [App.localGet] and
      [App.localPut] reject the call when the account is neither the sender
      nor listed in the transaction's accounts, or has not opted in, and
      [App.localGet] returns [Int(0)] for an absent key of an account that
      has;
    - a value is stored only under a key of at most 64 bytes and, for a byte
      string, when key and value together have at most 128 bytes; otherwise
      the call is rejected;
    - [+], [-] and [*] on [uint64] reject the call when the result leaves
      [0, 2^64); [==] rejects the call when its operands differ in type;
    - [Assert] rejects the call; each assertion of the source is labelled
      with the kind of failure it stands for;
    - the bare calls run [Approve()]; the ledger then records the opt-in, or
      deletes the local store of an account that closes out or clears its
      state;
    - the payment grouped with a purchase must be one its payer can fund and
      is credited to its receiver; the program never pays out, and the ledger
      holds fewer than [2^64] microalgos, so the payments the application
      has received add up to less than [2^64];
    - what the ledger supplies per call ([Txn.sender()], the transaction's
      accounts, [Global.creator_address()],
      [Global.current_application_address()], [Global.latest_timestamp()])
      is a record passed to each call;
    - the application is created by the bare creation call, which runs
      [Approve()] and leaves both stores empty; the router rejects every
      other bare call and every call that would update or delete the
      application, and a rejected call changes nothing.

    Not modelled: the number of keys the schema reserves, and fees. *)

From Stdlib Require Import NArith Lia Ascii String.
From stdpp Require Import gmap strings list fin_maps.

Open Scope N_scope.

(** ** TEAL values and byte strings *)

Inductive teal_value :=
| Uint (n : N)
| Bytes (b : string).

Definition two64 : N := 2 ^ 64.

(** [be_bytes k n]: the [k] low-order bytes of [n], most significant first. *)
Fixpoint be_bytes (k : nat) (n : N) : string :=
  match k with
  | O => EmptyString
  | S k' => String (ascii_of_N ((n / 256 ^ N.of_nat k') mod 256)) (be_bytes k' n)
  end.

(** [Itob]: a [uint64] as 8 big-endian bytes. *)
Definition Itob (n : N) : string := be_bytes 8 n.

(** [Btoi] on a byte string, most significant byte first. *)
Fixpoint btoi_acc (b : string) (acc : N) : N :=
  match b with
  | EmptyString => acc
  | String c b' => btoi_acc b' (acc * 256 + N_of_ascii c)
  end.

Definition Btoi (b : string) : N := btoi_acc b 0.

(** ** Outcome of a call *)

(** Why a call is rejected.  The first six are the failure kinds of the
    specification; the program has no assertion for [NotInitialized],
    [AlreadyInitialized] or [NotFound].  The next three are the other ways
    the program stops: the receiver assertion of [purchase_credits], an
    arithmetic result outside [uint64], and an operator applied to a value of
    the wrong type.  The last five come from the ledger: local state of an
    account that has not opted in, a second opt-in, a key or value over the
    size limit, a payment that cannot be made, and an account the
    transaction does not make available. *)
Inductive error :=
| Unauthorized
| NotInitialized
| AlreadyInitialized
| NotFound
| InsufficientBalance
| InsufficientPayment
| WrongReceiver
| ArithOverflow
| TypeMismatch
| NotOptedIn
| AlreadyOptedIn
| StorageLimit
| PaymentRejected
| UnavailableAccount.

Inductive result (A : Type) :=
| Ok (a : A)
| Err (e : error).
Arguments Ok {A} a.
Arguments Err {A} e.

Definition is_approved {A} (r : result A) : bool :=
  match r with
  | Ok _ => true
  | Err _ => false
  end.

(** ** Stores and transaction context *)

(** [locals] holds the local values by account and key, [opted_in] the
    accounts that have opted in, [paid_in] the microalgos the application has
    received with purchases. *)
Record state := mkState {
  globals : gmap string teal_value;
  locals : gmap (string * string) teal_value;
  opted_in : gset string;
  paid_in : N
}.

Record txn_ctx := mkCtx {
  sender : string;
  creator_address : string;
  current_application_address : string;
  latest_timestamp : N;
  accounts : list string
}.

(** The payment transaction grouped with a [purchase_credits] call;
    [funded] tells whether its payer holds the amount. *)
Record payment_txn := mkPayment {
  receiver : string;
  amount : N;
  funded : bool
}.

(** The store of a freshly created application. *)
Definition empty_state : state := mkState ∅ ∅ ∅ 0.

(** ** Programs: state passing with rejection *)

Definition M (A : Type) : Type := state -> result (A * state).

Definition ret {A} (a : A) : M A := fun s => Ok (a, s).

Definition bind {A B} (m : M A) (k : A -> M B) : M B :=
  fun s => match m s with
           | Ok (a, s') => k a s'
           | Err e => Err e
           end.

Definition fail {A} (e : error) : M A := fun _ => Err e.

Notation "x <- c ;; k" := (bind c (fun x => k))
  (at level 100, c at next level, right associativity).
Notation "c ;;; k" := (bind c (fun _ => k))
  (at level 100, right associativity).

Definition Assert (cond : bool) (e : error) : M unit :=
  if cond then ret tt else fail e.

(** Stack values used as integers. *)
Definition as_uint (v : teal_value) : M N :=
  match v with
  | Uint n => ret n
  | Bytes _ => fail TypeMismatch
  end.

(** [==]: both operands must have the same type. *)
Definition teal_eq (a b : teal_value) : M bool :=
  match a, b with
  | Uint x, Uint y => ret (x =? y)
  | Bytes x, Bytes y => ret (String.eqb x y)
  | _, _ => fail TypeMismatch
  end.

Definition add (a b : N) : M N :=
  if a + b <? two64 then ret (a + b) else fail ArithOverflow.

Definition sub (a b : N) : M N :=
  if b <=? a then ret (a - b) else fail ArithOverflow.

Definition mul (a b : N) : M N :=
  if a * b <? two64 then ret (a * b) else fail ArithOverflow.

(** The size limit on a stored key and value. *)
Definition fits (k : string) (v : teal_value) : bool :=
  Nat.leb (String.length k) 64 &&
  match v with
  | Uint _ => true
  | Bytes b => Nat.leb (String.length k + String.length b) 128
  end.

Definition is_opted (s : state) (a : string) : bool :=
  bool_decide (a ∈ opted_in s).

Definition globalGet (k : string) : M teal_value :=
  fun s => Ok (default (Uint 0) (globals s !! k), s).

Definition globalPut (k : string) (v : teal_value) : M unit :=
  fun s =>
    if fits k v then
      Ok (tt, mkState (<[k := v]> (globals s)) (locals s) (opted_in s) (paid_in s))
    else Err StorageLimit.

(** The accounts a call may name: its sender, the application's own
    account and the accounts the transaction lists. *)
Definition available (c : txn_ctx) (a : string) : bool :=
  existsb (String.eqb a)
    (sender c :: current_application_address c :: accounts c).

Definition localGet (c : txn_ctx) (a k : string) : M teal_value :=
  fun s =>
    if available c a then
      if is_opted s a then Ok (default (Uint 0) (locals s !! (a, k)), s)
      else Err NotOptedIn
    else Err UnavailableAccount.

Definition localPut (c : txn_ctx) (a k : string) (v : teal_value) : M unit :=
  fun s =>
    if available c a then
      if is_opted s a then
        if fits k v then
          Ok (tt, mkState (globals s) (<[(a, k) := v]> (locals s))
                          (opted_in s) (paid_in s))
        else Err StorageLimit
      else Err NotOptedIn
    else Err UnavailableAccount.

(** ** What the ledger does around the program *)

(** The local values of every account but [a]. *)
Definition forget (a : string) (l : gmap (string * string) teal_value)
    : gmap (string * string) teal_value :=
  filter (fun kv : (string * string) * teal_value => kv.1.1 <> a) l.

(** Opting in allocates the local store; an account opts in once. *)
Definition ledger_opt_in (a : string) : M unit :=
  fun s =>
    if is_opted s a then Err AlreadyOptedIn
    else Ok (tt, mkState (globals s) (locals s) ({[a]} ∪ opted_in s) (paid_in s)).

(** Closing out and clearing state delete the local store. *)
Definition ledger_close_out (a : string) : M unit :=
  fun s =>
    if is_opted s a then
      Ok (tt, mkState (globals s) (forget a (locals s))
                      (opted_in s ∖ {[a]}) (paid_in s))
    else Err NotOptedIn.

Definition globalGetUint (k : string) : M N := v <- globalGet k ;; as_uint v.
Definition localGetUint (c : txn_ctx) (a k : string) : M N :=
  v <- localGet c a k ;; as_uint v.

(** ** The contract *)

Module CarbonMarketplace.

(** Global state variables *)
Definition total_projects : string := "total_projects".
Definition total_credits_issued : string := "total_credits_issued".
Definition total_credits_retired : string := "total_credits_retired".
Definition marketplace_fee : string := "marketplace_fee".
Definition admin_address : string := "admin_address".

(** Local state variables (per user) *)
Definition user_credits_owned : string := "credits_owned".
Definition user_credits_retired : string := "credits_retired".

Definition project_key (id : N) : string := "project_" +:+ Itob id.

Definition purchase_key (who : string) (ts : N) : string :=
  "purchase_" +:+ who +:+ "_" +:+ Itob ts.

Definition retirement_key (who : string) (ts : N) : string :=
  "retirement_" +:+ who +:+ "_" +:+ Itob ts.

Definition transfer_key (ts : N) : string := "transfer_" +:+ Itob ts.

Definition project_record (project_name : string)
    (project_type verification_standard total_credits price_per_credit vintage : N)
    : string :=
  project_name +:+ "|" +:+ Itob project_type +:+ "|" +:+
  Itob verification_standard +:+ "|" +:+ Itob total_credits +:+ "|" +:+
  Itob price_per_credit +:+ "|" +:+ Itob vintage.

Definition purchase_record (project_id quantity paid : N) : string :=
  Itob project_id +:+ "|" +:+ Itob quantity +:+ "|" +:+ Itob paid.

Definition retirement_record (quantity : N) (reason beneficiary : string) : string :=
  Itob quantity +:+ "|" +:+ reason +:+ "|" +:+ beneficiary.

Definition transfer_record (from to : string) (quantity : N) : string :=
  from +:+ "|" +:+ to +:+ "|" +:+ Itob quantity.

(** [get_project_price]: the lookup of the project record is bound to a
    Python variable that the returned expression does not use; the price is
    the constant. *)
Definition get_project_price (project_id : N) : M N :=
  let project_data := globalGet (project_key project_id) in
  ret 1000000.

Definition initialize_marketplace (c : txn_ctx)
    (fee_basis_points : N) (admin : string) : M unit :=
  ok <- teal_eq (Bytes (sender c)) (Bytes (creator_address c)) ;;
  Assert ok Unauthorized ;;;
  globalPut marketplace_fee (Uint fee_basis_points) ;;;
  globalPut admin_address (Bytes admin) ;;;
  globalPut total_projects (Uint 0) ;;;
  globalPut total_credits_issued (Uint 0) ;;;
  globalPut total_credits_retired (Uint 0).

Definition register_project (c : txn_ctx) (project_name : string)
    (project_type verification_standard total_credits price_per_credit vintage : N)
    : M unit :=
  adm <- globalGet admin_address ;;
  ok <- teal_eq (Bytes (sender c)) adm ;;
  Assert ok Unauthorized ;;;
  id <- globalGetUint total_projects ;;
  globalPut (project_key id)
    (Bytes (project_record project_name project_type verification_standard
              total_credits price_per_credit vintage)) ;;;
  n <- globalGetUint total_projects ;;
  n' <- add n 1 ;;
  globalPut total_projects (Uint n') ;;;
  issued <- globalGetUint total_credits_issued ;;
  issued' <- add issued total_credits ;;
  globalPut total_credits_issued (Uint issued').

Definition purchase_credits (c : txn_ctx)
    (project_id quantity : N) (payment : payment_txn) : M unit :=
  to_app <- teal_eq (Bytes (receiver payment))
                    (Bytes (current_application_address c)) ;;
  Assert to_app WrongReceiver ;;;
  price <- get_project_price project_id ;;
  required <- mul quantity price ;;
  Assert (required <=? amount payment) InsufficientPayment ;;;
  owned <- localGetUint c (sender c) user_credits_owned ;;
  owned' <- add owned quantity ;;
  localPut c (sender c) user_credits_owned (Uint owned') ;;;
  globalPut (purchase_key (sender c) (latest_timestamp c))
    (Bytes (purchase_record project_id quantity (amount payment))).

Definition retire_credits (c : txn_ctx)
    (quantity : N) (retirement_reason beneficiary : string) : M unit :=
  have <- localGetUint c (sender c) user_credits_owned ;;
  Assert (quantity <=? have) InsufficientBalance ;;;
  owned <- localGetUint c (sender c) user_credits_owned ;;
  owned' <- sub owned quantity ;;
  localPut c (sender c) user_credits_owned (Uint owned') ;;;
  retired <- localGetUint c (sender c) user_credits_retired ;;
  retired' <- add retired quantity ;;
  localPut c (sender c) user_credits_retired (Uint retired') ;;;
  total <- globalGetUint total_credits_retired ;;
  total' <- add total quantity ;;
  globalPut total_credits_retired (Uint total') ;;;
  globalPut (retirement_key (sender c) (latest_timestamp c))
    (Bytes (retirement_record quantity retirement_reason beneficiary)).

Definition transfer_credits (c : txn_ctx)
    (recipient : string) (quantity : N) : M unit :=
  have <- localGetUint c (sender c) user_credits_owned ;;
  Assert (quantity <=? have) InsufficientBalance ;;;
  owned <- localGetUint c (sender c) user_credits_owned ;;
  owned' <- sub owned quantity ;;
  localPut c (sender c) user_credits_owned (Uint owned') ;;;
  theirs <- localGetUint c recipient user_credits_owned ;;
  theirs' <- add theirs quantity ;;
  localPut c recipient user_credits_owned (Uint theirs') ;;;
  globalPut (transfer_key (latest_timestamp c))
    (Bytes (transfer_record (sender c) recipient quantity)).

(** The bare calls of the router, and the program that is written out as
    the clear program and runs on a clear-state call: all are [Approve()]. *)
Definition Approve : M unit := ret tt.
Definition bare_opt_in : M unit := Approve.
Definition bare_close_out : M unit := Approve.
Definition bare_clear_state : M unit := Approve.
Definition clear_program : M unit := Approve.

Definition get_user_credits (c : txn_ctx) (user : string) : M N :=
  localGetUint c user user_credits_owned.

Definition get_marketplace_stats : M string :=
  projects <- globalGetUint total_projects ;;
  issued <- globalGetUint total_credits_issued ;;
  retired <- globalGetUint total_credits_retired ;;
  ret ("projects:" +:+ Itob projects +:+ "|issued:" +:+ Itob issued +:+
       "|retired:" +:+ Itob retired).

End CarbonMarketplace.

(** ** The router: one call per transaction *)

Inductive call :=
| InitializeMarketplace (fee_basis_points : N) (admin : string)
| RegisterProject (project_name : string)
    (project_type verification_standard total_credits price_per_credit vintage : N)
| PurchaseCredits (project_id quantity : N) (payment : payment_txn)
| RetireCredits (quantity : N) (retirement_reason beneficiary : string)
| TransferCredits (recipient : string) (quantity : N)
| GetUserCredits (user : string)
| GetMarketplaceStats
| OptIn
| CloseOut
| ClearState.

(** What a method returns to its caller. *)
Inductive output :=
| NoOutput
| OutUint (n : N)
| OutString (b : string).

Import CarbonMarketplace.

(** The payment grouped with a purchase: its payer must hold the amount;
    what goes to the application is added to what it holds, which stays
    below [2^64]. *)
Definition ledger_pay (c : txn_ctx) (p : payment_txn) : M unit :=
  fun s =>
    if funded p then
      if String.eqb (receiver p) (current_application_address c) then
        if paid_in s + amount p <? two64 then
          Ok (tt, mkState (globals s) (locals s) (opted_in s)
                          (paid_in s + amount p))
        else Err PaymentRejected
      else Ok (tt, s)
    else Err PaymentRejected.

Definition route (c : txn_ctx) (m : call) : M output :=
  match m with
  | InitializeMarketplace fee admin =>
      initialize_marketplace c fee admin ;;; ret NoOutput
  | RegisterProject name ty std credits price vintage =>
      register_project c name ty std credits price vintage ;;; ret NoOutput
  | PurchaseCredits id q p =>
      ledger_pay c p ;;; purchase_credits c id q p ;;; ret NoOutput
  | RetireCredits q reason beneficiary =>
      retire_credits c q reason beneficiary ;;; ret NoOutput
  | TransferCredits recipient q =>
      transfer_credits c recipient q ;;; ret NoOutput
  | GetUserCredits user =>
      n <- get_user_credits c user ;; ret (OutUint n)
  | GetMarketplaceStats =>
      b <- get_marketplace_stats ;; ret (OutString b)
  | OptIn =>
      ledger_opt_in (sender c) ;;; bare_opt_in ;;; ret NoOutput
  | CloseOut =>
      bare_close_out ;;; ledger_close_out (sender c) ;;; ret NoOutput
  | ClearState =>
      clear_program ;;; ledger_close_out (sender c) ;;; ret NoOutput
  end.

(** The ledger's view of a call: an approved call commits its writes, a
    rejected call leaves the stores as they were. *)
Definition step (s : state) (c : txn_ctx) (m : call) : state :=
  match route c m s with
  | Ok (_, s') => s'
  | Err _ => s
  end.

Definition run (s : state) (ops : list (txn_ctx * call)) : state :=
  foldl (fun st op => step st op.1 op.2) s ops.

(** The states after each operation of a sequence, in order. *)
Fixpoint trace (s : state) (ops : list (txn_ctx * call)) : list state :=
  match ops with
  | [] => []
  | op :: ops' => let s' := step s op.1 op.2 in s' :: trace s' ops'
  end.

(** ** Reading the stores *)

Definition uint_of (v : teal_value) : N :=
  match v with
  | Uint n => n
  | Bytes _ => 0
  end.

Definition global_uint (s : state) (k : string) : N :=
  uint_of (default (Uint 0) (globals s !! k)).

Definition local_uint (s : state) (a k : string) : N :=
  uint_of (default (Uint 0) (locals s !! (a, k))).

Definition balance_of (s : state) (a : string) : N := local_uint s a user_credits_owned.
Definition retired_of (s : state) (a : string) : N := local_uint s a user_credits_retired.

(** ** Well-formed and reachable stores *)

Definition is_u64 (v : teal_value) : Prop := ∃ n, v = Uint n ∧ n < two64.

Definition counter_ok (g : gmap string teal_value) (k : string) : Prop :=
  ∀ v, g !! k = Some v → is_u64 v.

(** Every local value and every aggregate that is present is a [uint64],
    and only accounts that have opted in have local values. *)
Record wf (s : state) : Prop := mkWf {
  wf_locals : map_Forall (λ _ v, is_u64 v) (locals s);
  wf_total_projects : counter_ok (globals s) total_projects;
  wf_total_credits_issued : counter_ok (globals s) total_credits_issued;
  wf_total_credits_retired : counter_ok (globals s) total_credits_retired;
  wf_opted : ∀ a k, is_Some (locals s !! (a, k)) → a ∈ opted_in s
}.

(** The stores the application can be in: created empty, then any calls. *)
Inductive reachable : state → Prop :=
| reach_created : reachable empty_state
| reach_step s c m : reachable s → reachable (step s c m).

Definition is_initialize (m : call) : bool :=
  match m with
  | InitializeMarketplace _ _ => true
  | _ => false
  end.

(** The two read-only methods. *)
Definition is_query (m : call) : bool :=
  match m with
  | GetUserCredits _ | GetMarketplaceStats => true
  | _ => false
  end.

Definition is_close_out (m : call) : bool :=
  match m with
  | CloseOut | ClearState => true
  | _ => false
  end.

(** The three calls that move credits. *)
Definition moves_credits (m : call) : bool :=
  match m with
  | PurchaseCredits _ _ _ | RetireCredits _ _ _ | TransferCredits _ _ => true
  | _ => false
  end.

(** No config stored yet: [initialize_marketplace] has not run. *)
Definition uninitialized (s : state) : Prop :=
  globals s !! admin_address = None.

(** The same stores with a config written. *)
Definition with_config (fee : N) (admin : string) (s : state) : state :=
  mkState (<[admin_address := Bytes admin]>
            (<[marketplace_fee := Uint fee]> (globals s)))
          (locals s) (opted_in s) (paid_in s).

Definition result_map {A} (f : state → state) (r : result (A * state))
    : result (A * state) :=
  match r with
  | Ok (a, s) => Ok (a, f s)
  | Err e => Err e
  end.

(** ** The audit records *)

(** The record a call writes when it is approved: global key and value. *)
Definition audit_entry (c : txn_ctx) (m : call) : option (string * teal_value) :=
  match m with
  | PurchaseCredits id q p =>
      Some (purchase_key (sender c) (latest_timestamp c),
            Bytes (purchase_record id q (amount p)))
  | RetireCredits q reason beneficiary =>
      Some (retirement_key (sender c) (latest_timestamp c),
            Bytes (retirement_record q reason beneficiary))
  | TransferCredits recipient q =>
      Some (transfer_key (latest_timestamp c),
            Bytes (transfer_record (sender c) recipient q))
  | _ => None
  end.

Definition audit_key (c : txn_ctx) (m : call) : option string :=
  fst <$> audit_entry c m.

(** Global keys that hold audit records. *)
Definition is_audit_key (k : string) : bool :=
  String.prefix "purchase_" k || String.prefix "retirement_" k ||
  String.prefix "transfer_" k.

(** Two calls of the same kind, at the same timestamp and (for purchases
    and retirements) by the same sender. *)
Definition same_slot (c1 : txn_ctx) (m1 : call) (c2 : txn_ctx) (m2 : call) : Prop :=
  latest_timestamp c1 = latest_timestamp c2 ∧
  match m1, m2 with
  | PurchaseCredits _ _ _, PurchaseCredits _ _ _ => sender c1 = sender c2
  | RetireCredits _ _ _, RetireCredits _ _ _ => sender c1 = sender c2
  | TransferCredits _ _, TransferCredits _ _ => True
  | _, _ => False
  end.

(** What the ledger guarantees about a call's context. *)
Definition ctx_ok (c : txn_ctx) : Prop :=
  String.length (sender c) = 32%nat ∧ latest_timestamp c < two64.

(** ** Conservation *)

(** The [total_credits] field of a stored project record: the record ends
    with [| total_credits | price_per_credit | vintage], 8 bytes each. *)
Definition record_total_credits (v : teal_value) : N :=
  match v with
  | Bytes b => Btoi (String.substring (String.length b - 26) 8 b)
  | Uint _ => 0
  end.

Definition project_total_credits (s : state) (id : N) : N :=
  record_total_credits (default (Uint 0) (globals s !! project_key id)).

(** [f 0 + ... + f (k-1)] *)
Fixpoint sum_below (k : nat) (f : N → N) : N :=
  match k with
  | O => 0
  | S k' => sum_below k' f + f (N.of_nat k')
  end.

(** Sum of [total_credits] over the registered projects, ids
    [0 .. total_projects - 1]. *)
Definition sum_project_credits (s : state) : N :=
  sum_below (N.to_nat (global_uint s total_projects)) (project_total_credits s).

Definition retired_part (k : string * string) (v : teal_value) : N :=
  if decide (k.2 = user_credits_retired) then uint_of v else 0.

(** Sum of [credits_retired] over all accounts. *)
Definition sum_credits_retired (s : state) : N :=
  map_fold (λ k v acc, retired_part k v + acc) 0 (locals s).

Definition conservation (s : state) : Prop :=
  global_uint s total_credits_issued = sum_project_credits s ∧
  global_uint s total_credits_retired = sum_credits_retired s.

(** The two halves of [conservation]. *)
Definition issued_conserved (s : state) : Prop :=
  global_uint s total_credits_issued = sum_project_credits s.

Definition retired_conserved (s : state) : Prop :=
  global_uint s total_credits_retired = sum_credits_retired s.

(** The calls after which [total_credits_retired] and the accounts disagree:
    an [initialize_marketplace] by the creator that zeroes a counter that was
    not zero, and a close-out or clear-state by an account that has retired
    credits. *)
Definition breaks_retired_sum (c : txn_ctx) (m : call) (s : state) : bool :=
  match m with
  | InitializeMarketplace _ admin =>
      String.eqb (sender c) (creator_address c) &&
      fits admin_address (Bytes admin) &&
      negb (global_uint s total_credits_retired =? 0)
  | CloseOut | ClearState =>
      is_opted s (sender c) && negb (retired_of s (sender c) =? 0)
  | _ => false
  end.

(** No call of the sequence is one of those. *)
Fixpoint harmless (s : state) (ops : list (txn_ctx * call)) : bool :=
  match ops with
  | [] => true
  | op :: ops' =>
      negb (breaks_retired_sum op.1 op.2 s) && harmless (step s op.1 op.2) ops'
  end.

(** ** Scenario data *)

Module Scenario.

Definition deployer : string := "DDDDDDDDDDDDDDDDDDDDDDDDDDDDDDDD".
Definition admin_A : string := "AAAAAAAAAAAAAAAAAAAAAAAAAAAAAAAA".
Definition B : string := "BBBBBBBBBBBBBBBBBBBBBBBBBBBBBBBB".
Definition C : string := "CCCCCCCCCCCCCCCCCCCCCCCCCCCCCCCC".
Definition E : string := "EEEEEEEEEEEEEEEEEEEEEEEEEEEEEEEE".
Definition app : string := "PPPPPPPPPPPPPPPPPPPPPPPPPPPPPPPP".

(** A call by [who] at time [ts]; the transaction lists [B], [C] and [E]. *)
Definition tx (who : string) (ts : N) : txn_ctx :=
  mkCtx who deployer app ts [B; C; E].

(** A payment of [n] to the application, by a payer who holds it. *)
Definition pay (n : N) : payment_txn := mkPayment app n true.

(** The application is created and [B] and [C] opt in; [E] never does. *)
Definition opted : state :=
  run empty_state [(tx B 0, OptIn); (tx C 0, OptIn)].

(** [initialize(100, admin_A)] by the creator. *)
Definition initialized : state :=
  step opted (tx deployer 1) (InitializeMarketplace 100 admin_A).

(** ... then [register_project("Forest X", 1, 1, 1000, 50, 2023)]. *)
Definition with_forest : state :=
  step initialized (tx admin_A 2) (RegisterProject "Forest X" 1 1 1000 50 2023).

(** [B] buys 10 credits at the price the program charges. *)
Definition B_has_10 : state :=
  step with_forest (tx B 3) (PurchaseCredits 0 10 (pay 10000000)).

(** [B] buys 5 credits. *)
Definition B_has_5 : state :=
  step with_forest (tx B 3) (PurchaseCredits 0 5 (pay 5000000)).

(** [B] retires its 10 credits. *)
Definition B_retired_10 : state :=
  step B_has_10 (tx B 4) (RetireCredits 10 "offset 2024" "Acme Corp").

(** The deployer calls [initialize] a second time. *)
Definition reinitialized : state :=
  step B_retired_10 (tx deployer 5) (InitializeMarketplace 250 C).

(** [B] closes out after retiring. *)
Definition B_closed_out : state :=
  step B_retired_10 (tx B 5) CloseOut.




End Scenario.

Import Scenario.

(** ** Reading records back, and sums over the accounts *)

(** The 8-byte field at offset [off] of a byte string, as a number. *)
Definition field_at (off : nat) (b : string) : N :=
  Btoi (String.substring off 8 b).

(** All numbers of a list are [uint64]. *)
Definition all_u64 (l : list N) : bool := forallb (fun n => n <? two64) l.

(** The recipient a call names, if any. *)
Definition call_recipient (m : call) : option string :=
  match m with
  | TransferCredits recipient _ => Some recipient
  | _ => None
  end.

Definition owned_part (k : string * string) (v : teal_value) : N :=
  if decide (k.2 = user_credits_owned) then uint_of v else 0.

(** Sum of [credits_owned] over all accounts. *)
Definition sum_credits_owned (s : state) : N :=
  map_fold (λ k v acc, owned_part k v + acc) 0 (locals s).

(** Credits an approved purchase adds, credits an approved retirement
    retires. *)
Definition purchased_by (c : txn_ctx) (m : call) (s : state) : N :=
  match m with
  | PurchaseCredits _ q _ => if is_approved (route c m s) then q else 0
  | _ => 0
  end.

Definition retired_by (c : txn_ctx) (m : call) (s : state) : N :=
  match m with
  | RetireCredits q _ _ => if is_approved (route c m s) then q else 0
  | _ => 0
  end.

(** The part of a local value in the sum of the values named [name]. *)
Definition named_part (name : string) (k : string * string) (v : teal_value) : N :=
  if decide (k.2 = name) then uint_of v else 0.

Definition named_sum (name : string) (l : gmap (string * string) teal_value) : N :=
  map_fold (λ k v acc, named_part name k v + acc) 0 l.

(** The two sums after a call against the sums before it: what came in and
    what went out. *)
Record sums_moved (s s' : state) (owned_in owned_out retired_in retired_out : N)
    : Prop := mkMoved {
  moved_owned : sum_credits_owned s' + owned_out = sum_credits_owned s + owned_in;
  moved_retired :
    sum_credits_retired s' + retired_out = sum_credits_retired s + retired_in
}.

(** Credits an approved close-out or clear-state deletes. *)
Definition forfeited_by (c : txn_ctx) (m : call) (s : state) : N :=
  if is_close_out m && is_opted s (sender c)
  then balance_of s (sender c) + retired_of s (sender c)
  else 0.

(** Every credit is paid for: the credits in the accounts, and the credits
    owned together with the retirement counter, cost no more than the
    application has received. *)
Definition backed (s : state) : Prop :=
  1000000 * (sum_credits_owned s + sum_credits_retired s) <= paid_in s /\
  1000000 * (sum_credits_owned s + global_uint s total_credits_retired)
    <= paid_in s /\
  paid_in s < two64.

(** * Facts about the model *)

(** ** Byte strings *)

Section BytesFacts.

Lemma pow256_succ (k : nat) : 256 ^ N.of_nat (S k) = 256 ^ N.of_nat k * 256.
Proof. rewrite Nat2N.inj_succ, N.pow_succ_r'. lia. Qed.

Lemma btoi_be_bytes (k : nat) (n acc : N) :
  btoi_acc (be_bytes k n) acc = acc * 256 ^ N.of_nat k + n mod 256 ^ N.of_nat k.
Proof.
  revert acc. induction k as [|k IH]; intros acc.
  - cbn [be_bytes btoi_acc]. change (256 ^ N.of_nat 0) with 1.
    rewrite N.mod_1_r. lia.
  - cbn [be_bytes btoi_acc]. rewrite IH.
    rewrite N_ascii_embedding by (apply N.mod_lt; discriminate).
    rewrite pow256_succ.
    rewrite (N.Div0.mod_mul_r n (256 ^ N.of_nat k) 256). lia.
Qed.

Lemma Btoi_Itob (n : N) : n < two64 -> Btoi (Itob n) = n.
Proof.
  intros Hn. unfold Btoi, Itob. rewrite btoi_be_bytes.
  change (256 ^ N.of_nat 8) with two64. rewrite N.mod_small; lia.
Qed.

Lemma Itob_inj (n m : N) : n < two64 -> m < two64 -> Itob n = Itob m -> n = m.
Proof.
  intros Hn Hm E. rewrite <- (Btoi_Itob n Hn), <- (Btoi_Itob m Hm). by rewrite E.
Qed.

Lemma length_be_bytes (k : nat) (n : N) : String.length (be_bytes k n) = k.
Proof. induction k as [|k IH]; [done|]. simpl. by rewrite IH. Qed.

Lemma length_Itob (n : N) : String.length (Itob n) = 8%nat.
Proof. apply length_be_bytes. Qed.

Lemma length_app (a b : string) :
  String.length (a +:+ b) = (String.length a + String.length b)%nat.
Proof. induction a as [|c a IH]; [done|]. simpl. by rewrite IH. Qed.

Lemma app_inj_length (a a' x x' : string) :
  String.length a = String.length a' ->
  a +:+ x = a' +:+ x' -> a = a' /\ x = x'.
Proof.
  revert a'. induction a as [|c a IH]; intros [|c' a'] Hlen E; try discriminate.
  - done.
  - cbn in Hlen, E. injection E as -> E. injection Hlen as Hlen.
    destruct (IH a' Hlen E) as [-> ->]. done.
Qed.

End BytesFacts.

(** ** Keys of the global and local stores never clash across kinds *)

Ltac key_neq := let H := fresh in intros H; cbv -[Itob] in H; congruence.

(** ** Closed forms of the methods *)

Lemma fits_uint k n : (String.length k <= 64)%nat -> fits k (Uint n) = true.
Proof.
  intros H. unfold fits. apply andb_true_iff. split; [|done].
  by apply Nat.leb_le.
Qed.

Lemma fits_total_projects n : fits total_projects (Uint n) = true.
Proof. reflexivity. Qed.
Lemma fits_total_credits_issued n : fits total_credits_issued (Uint n) = true.
Proof. reflexivity. Qed.
Lemma fits_total_credits_retired n : fits total_credits_retired (Uint n) = true.
Proof. reflexivity. Qed.
Lemma fits_marketplace_fee n : fits marketplace_fee (Uint n) = true.
Proof. reflexivity. Qed.
Lemma fits_user_credits_owned n : fits user_credits_owned (Uint n) = true.
Proof. reflexivity. Qed.
Lemma fits_user_credits_retired n : fits user_credits_retired (Uint n) = true.
Proof. reflexivity. Qed.

Lemma available_sender c : available c (sender c) = true.
Proof. unfold available. cbn. by rewrite String.eqb_refl. Qed.

Ltac unfold_prog :=
  cbv beta iota zeta delta
    [route initialize_marketplace register_project purchase_credits
     retire_credits transfer_credits get_user_credits get_marketplace_stats
     get_project_price globalGetUint localGetUint
     bare_opt_in bare_close_out bare_clear_state clear_program Approve
     ledger_pay ledger_opt_in ledger_close_out is_opted
     bind ret fail Assert teal_eq as_uint add sub mul
     globalGet globalPut localGet localPut];
  cbn [globals locals opted_in paid_in].

Ltac fits_const :=
  first [ rewrite fits_total_projects | rewrite fits_total_credits_issued
        | rewrite fits_total_credits_retired | rewrite fits_marketplace_fee
        | rewrite fits_user_credits_owned | rewrite fits_user_credits_retired ].

Ltac prog_step :=
  first
    [ progress cbn [globals locals opted_in paid_in]
    | rewrite available_sender
    | fits_const
    | rewrite lookup_insert_eq
    | rewrite lookup_insert_ne by key_neq
    | match goal with
      | H : ?x = _ |- context [match ?x with _ => _ end] => rewrite H
      | H : ?x = _ |- context [if ?x then _ else _] => rewrite H
      | |- context [match default ?d ?o with _ => _ end] =>
          destruct (default d o) eqn:?
      | |- context [if ?b then _ else _] => destruct b eqn:?
      end
    | progress simplify_eq
    | reflexivity ].

Ltac prog_cases := repeat prog_step.

Lemma initialize_marketplace_eq c fee admin s :
  initialize_marketplace c fee admin s =
    if String.eqb (sender c) (creator_address c) then
      if fits admin_address (Bytes admin) then
        Ok (tt, mkState
             (<[total_credits_retired := Uint 0]>
               (<[total_credits_issued := Uint 0]>
                 (<[total_projects := Uint 0]>
                   (<[admin_address := Bytes admin]>
                     (<[marketplace_fee := Uint fee]> (globals s))))))
             (locals s) (opted_in s) (paid_in s))
      else Err StorageLimit
    else Err Unauthorized.
Proof. unfold_prog. prog_cases. Qed.

Lemma register_project_eq c name ty std tc price vint s :
  register_project c name ty std tc price vint s =
    match default (Uint 0) (globals s !! admin_address) with
    | Uint _ => Err TypeMismatch
    | Bytes adm =>
      if String.eqb (sender c) adm then
        match default (Uint 0) (globals s !! total_projects) with
        | Bytes _ => Err TypeMismatch
        | Uint n =>
          if fits (project_key n)
                  (Bytes (project_record name ty std tc price vint)) then
            if n + 1 <? two64 then
              match default (Uint 0) (globals s !! total_credits_issued) with
              | Bytes _ => Err TypeMismatch
              | Uint i =>
                if i + tc <? two64 then
                  Ok (tt, mkState
                       (<[total_credits_issued := Uint (i + tc)]>
                         (<[total_projects := Uint (n + 1)]>
                           (<[project_key n :=
                                Bytes (project_record name ty std tc price vint)]>
                             (globals s))))
                       (locals s) (opted_in s) (paid_in s))
                else Err ArithOverflow
              end
            else Err ArithOverflow
          else Err StorageLimit
        end
      else Err Unauthorized
    end.
Proof. unfold_prog. prog_cases. Qed.

Lemma purchase_credits_eq c id q p s :
  purchase_credits c id q p s =
    if String.eqb (receiver p) (current_application_address c) then
      if q * 1000000 <? two64 then
        if q * 1000000 <=? amount p then
          if is_opted s (sender c) then
            match default (Uint 0) (locals s !! (sender c, user_credits_owned)) with
            | Bytes _ => Err TypeMismatch
            | Uint o =>
              if o + q <? two64 then
                if fits (purchase_key (sender c) (latest_timestamp c))
                        (Bytes (purchase_record id q (amount p))) then
                  Ok (tt, mkState
                       (<[purchase_key (sender c) (latest_timestamp c) :=
                            Bytes (purchase_record id q (amount p))]> (globals s))
                       (<[(sender c, user_credits_owned) := Uint (o + q)]> (locals s))
                       (opted_in s) (paid_in s))
                else Err StorageLimit
              else Err ArithOverflow
            end
          else Err NotOptedIn
        else Err InsufficientPayment
      else Err ArithOverflow
    else Err WrongReceiver.
Proof. unfold_prog. prog_cases. Qed.

Lemma retire_credits_eq c q reason beneficiary s :
  retire_credits c q reason beneficiary s =
    if is_opted s (sender c) then
      match default (Uint 0) (locals s !! (sender c, user_credits_owned)) with
      | Bytes _ => Err TypeMismatch
      | Uint o =>
        if q <=? o then
          match default (Uint 0) (locals s !! (sender c, user_credits_retired)) with
          | Bytes _ => Err TypeMismatch
          | Uint r =>
            if r + q <? two64 then
              match default (Uint 0) (globals s !! total_credits_retired) with
              | Bytes _ => Err TypeMismatch
              | Uint t =>
                if t + q <? two64 then
                  if fits (retirement_key (sender c) (latest_timestamp c))
                          (Bytes (retirement_record q reason beneficiary)) then
                    Ok (tt, mkState
                         (<[retirement_key (sender c) (latest_timestamp c) :=
                              Bytes (retirement_record q reason beneficiary)]>
                           (<[total_credits_retired := Uint (t + q)]> (globals s)))
                         (<[(sender c, user_credits_retired) := Uint (r + q)]>
                           (<[(sender c, user_credits_owned) := Uint (o - q)]>
                             (locals s)))
                         (opted_in s) (paid_in s))
                  else Err StorageLimit
                else Err ArithOverflow
              end
            else Err ArithOverflow
          end
        else Err InsufficientBalance
      end
    else Err NotOptedIn.
Proof. unfold_prog. prog_cases. Qed.

Lemma transfer_credits_eq c recipient q s :
  transfer_credits c recipient q s =
    if is_opted s (sender c) then
      match default (Uint 0) (locals s !! (sender c, user_credits_owned)) with
      | Bytes _ => Err TypeMismatch
      | Uint o =>
        if q <=? o then
          if available c recipient then
            if is_opted s recipient then
              match default (Uint 0)
                      (<[(sender c, user_credits_owned) := Uint (o - q)]> (locals s)
                         !! (recipient, user_credits_owned)) with
              | Bytes _ => Err TypeMismatch
              | Uint t =>
                if t + q <? two64 then
                  if fits (transfer_key (latest_timestamp c))
                          (Bytes (transfer_record (sender c) recipient q)) then
                    Ok (tt, mkState
                         (<[transfer_key (latest_timestamp c) :=
                              Bytes (transfer_record (sender c) recipient q)]>
                            (globals s))
                         (<[(recipient, user_credits_owned) := Uint (t + q)]>
                           (<[(sender c, user_credits_owned) := Uint (o - q)]>
                             (locals s)))
                         (opted_in s) (paid_in s))
                  else Err StorageLimit
                else Err ArithOverflow
              end
            else Err NotOptedIn
          else Err UnavailableAccount
        else Err InsufficientBalance
      end
    else Err NotOptedIn.
Proof. unfold_prog. prog_cases. Qed.

Lemma get_user_credits_eq c user s :
  get_user_credits c user s =
    if available c user then
      if is_opted s user then
        match default (Uint 0) (locals s !! (user, user_credits_owned)) with
        | Bytes _ => Err TypeMismatch
        | Uint n => Ok (n, s)
        end
      else Err NotOptedIn
    else Err UnavailableAccount.
Proof. unfold_prog. prog_cases. Qed.

(** ** The router and the ledger step *)

Lemma route_initialize c fee admin s :
  route c (InitializeMarketplace fee admin) s =
    match initialize_marketplace c fee admin s with
    | Ok (_, s') => Ok (NoOutput, s')
    | Err e => Err e
    end.
Proof. reflexivity. Qed.

Lemma route_register c name ty std tc price vint s :
  route c (RegisterProject name ty std tc price vint) s =
    match register_project c name ty std tc price vint s with
    | Ok (_, s') => Ok (NoOutput, s')
    | Err e => Err e
    end.
Proof. reflexivity. Qed.

(** A purchase: the grouped payment, then the method. *)
Lemma route_purchase c id q p s :
  route c (PurchaseCredits id q p) s =
    match ledger_pay c p s with
    | Ok (_, s1) =>
        match purchase_credits c id q p s1 with
        | Ok (_, s') => Ok (NoOutput, s')
        | Err e => Err e
        end
    | Err e => Err e
    end.
Proof. unfold route, bind. destruct (ledger_pay c p s) as [[[] s1]|e]; done. Qed.

Lemma route_purchase_eq c id q p s :
  route c (PurchaseCredits id q p) s =
    if funded p then
      if String.eqb (receiver p) (current_application_address c) then
        if paid_in s + amount p <? two64 then
          if q * 1000000 <? two64 then
            if q * 1000000 <=? amount p then
              if is_opted s (sender c) then
                match default (Uint 0)
                        (locals s !! (sender c, user_credits_owned)) with
                | Bytes _ => Err TypeMismatch
                | Uint o =>
                  if o + q <? two64 then
                    if fits (purchase_key (sender c) (latest_timestamp c))
                            (Bytes (purchase_record id q (amount p))) then
                      Ok (NoOutput, mkState
                           (<[purchase_key (sender c) (latest_timestamp c) :=
                                Bytes (purchase_record id q (amount p))]>
                              (globals s))
                           (<[(sender c, user_credits_owned) := Uint (o + q)]>
                              (locals s))
                           (opted_in s) (paid_in s + amount p))
                    else Err StorageLimit
                  else Err ArithOverflow
                end
              else Err NotOptedIn
            else Err InsufficientPayment
          else Err ArithOverflow
        else Err PaymentRejected
      else Err WrongReceiver
    else Err PaymentRejected.
Proof.
  rewrite route_purchase. unfold ledger_pay.
  destruct (funded p); [|done].
  destruct (String.eqb (receiver p) (current_application_address c)) eqn:Er.
  - destruct (paid_in s + amount p <? two64); [|done].
    rewrite purchase_credits_eq, Er. unfold is_opted. cbn [globals locals opted_in paid_in].
    repeat case_match; simplify_eq; done.
  - rewrite purchase_credits_eq, Er. done.
Qed.

Lemma route_retire c q reason beneficiary s :
  route c (RetireCredits q reason beneficiary) s =
    match retire_credits c q reason beneficiary s with
    | Ok (_, s') => Ok (NoOutput, s')
    | Err e => Err e
    end.
Proof. reflexivity. Qed.

Lemma route_transfer c recipient q s :
  route c (TransferCredits recipient q) s =
    match transfer_credits c recipient q s with
    | Ok (_, s') => Ok (NoOutput, s')
    | Err e => Err e
    end.
Proof. reflexivity. Qed.

Lemma route_get_user_credits c user s :
  route c (GetUserCredits user) s =
    match get_user_credits c user s with
    | Ok (n, s') => Ok (OutUint n, s')
    | Err e => Err e
    end.
Proof. reflexivity. Qed.

Lemma route_opt_in c s :
  route c OptIn s =
    if is_opted s (sender c) then Err AlreadyOptedIn
    else Ok (NoOutput, mkState (globals s) (locals s)
                         ({[sender c]} ∪ opted_in s) (paid_in s)).
Proof. unfold_prog. prog_cases. Qed.

Lemma route_close_out c s :
  route c CloseOut s =
    if is_opted s (sender c) then
      Ok (NoOutput, mkState (globals s) (forget (sender c) (locals s))
                      (opted_in s ∖ {[sender c]}) (paid_in s))
    else Err NotOptedIn.
Proof. unfold_prog. prog_cases. Qed.

Lemma route_clear_state c s : route c ClearState s = route c CloseOut s.
Proof. reflexivity. Qed.

(** The two queries never write. *)
Lemma route_query_state c m s o s' :
  is_query m = true -> route c m s = Ok (o, s') -> s' = s.
Proof.
  destruct m; try discriminate; intros _.
  - unfold_prog. prog_cases; congruence.
  - unfold_prog. prog_cases; congruence.
Qed.

Lemma step_rejected s c m e : route c m s = Err e -> step s c m = s.
Proof. unfold step. by intros ->. Qed.

Lemma step_approved s c m o s' : route c m s = Ok (o, s') -> step s c m = s'.
Proof. unfold step. by intros ->. Qed.

Lemma is_opted_true s a : is_opted s a = true <-> a ∈ opted_in s.
Proof. unfold is_opted. apply bool_decide_eq_true. Qed.


(** ** Well-formedness is an invariant *)

Lemma is_u64_Uint n : n < two64 -> is_u64 (Uint n).
Proof. intros. by exists n. Qed.

Lemma counter_ok_insert_ne g k k0 v :
  k0 <> k -> counter_ok g k -> counter_ok (<[k0 := v]> g) k.
Proof. intros Hne Hk w. rewrite lookup_insert_ne by done. apply Hk. Qed.

Lemma counter_ok_insert g k v :
  is_u64 v -> counter_ok (<[k := v]> g) k.
Proof. intros Hv w. rewrite lookup_insert_eq. by intros [= <-]. Qed.

Lemma default_u64 {K} `{Countable K} (m : gmap K teal_value) k n :
  (forall v, m !! k = Some v -> is_u64 v) ->
  default (Uint 0) (m !! k) = Uint n -> n < two64.
Proof.
  intros Hk. destruct (m !! k) as [v|] eqn:E; cbn.
  - destruct (Hk v eq_refl) as (x & -> & Hx). by intros [= <-].
  - intros [= <-]. done.
Qed.

Lemma default_not_bytes {K} `{Countable K} (m : gmap K teal_value) k b :
  (forall v, m !! k = Some v -> is_u64 v) ->
  default (Uint 0) (m !! k) <> Bytes b.
Proof.
  intros Hk. destruct (m !! k) as [v|] eqn:E; cbn; [|done].
  destruct (Hk v eq_refl) as (x & -> & Hx). done.
Qed.

Lemma wf_local_bound s k n :
  wf s -> default (Uint 0) (locals s !! k) = Uint n -> n < two64.
Proof. intros Hs. apply default_u64. intros v. apply (wf_locals s Hs). Qed.

Lemma wf_local_uint s a k :
  wf s ->
  default (Uint 0) (locals s !! (a, k)) = Uint (local_uint s a k) /\
  local_uint s a k < two64.
Proof.
  intros Hs. unfold local_uint.
  destruct (default (Uint 0) (locals s !! (a, k))) as [n|b] eqn:E.
  - split; [done|]. by eapply wf_local_bound.
  - exfalso. eapply default_not_bytes; [|exact E]. intros v. apply (wf_locals s Hs).
Qed.

Lemma wf_empty : wf empty_state.
Proof.
  split; cbn; [apply map_Forall_empty | intros v; by rewrite lookup_empty .. |].
  intros a k. rewrite lookup_empty. by intros [? ?].
Qed.

Lemma wf_opted_insert (l : gmap (string * string) teal_value) (o : gset string)
    (a k : string) (v : teal_value) :
  a ∈ o ->
  (forall a' k', is_Some (l !! (a', k')) -> a' ∈ o) ->
  forall a' k', is_Some (<[(a, k) := v]> l !! (a', k')) -> a' ∈ o.
Proof.
  intros Ha Hl a' k'. destruct (decide ((a, k) = (a', k'))) as [[= <- <-]|Hne].
  - done.
  - rewrite lookup_insert_ne by done. apply Hl.
Qed.

Lemma forget_lookup (a : string) (l : gmap (string * string) teal_value)
    (a' k : string) (v : teal_value) :
  forget a l !! (a', k) = Some v <-> l !! (a', k) = Some v /\ a' <> a.
Proof. unfold forget. by rewrite map_lookup_filter_Some. Qed.

Lemma forget_lookup_ne (a : string) (l : gmap (string * string) teal_value)
    (a' k : string) :
  a' <> a -> forget a l !! (a', k) = l !! (a', k).
Proof.
  intros Hne. apply option_eq. intros v. rewrite forget_lookup.
  split; [by intros [? _] | by intros].
Qed.


Ltac ltb_facts :=
  repeat match goal with
  | H : (_ <? _) = true |- _ => apply N.ltb_lt in H
  | H : (_ <? _) = false |- _ => apply N.ltb_ge in H
  | H : (_ <=? _) = true |- _ => apply N.leb_le in H
  | H : (_ <=? _) = false |- _ => apply N.leb_gt in H
  end.

Ltac u64_lia :=
  ltb_facts; change two64 with 18446744073709551616 in *; lia.

Ltac local_bounds Hs :=
  repeat match goal with
  | H : default (Uint 0) (locals _ !! _) = Uint ?n |- _ =>
      lazymatch goal with
      | _ : n < two64 |- _ => fail
      | _ => pose proof (wf_local_bound _ _ _ Hs H)
      end
  end.

Ltac wf_counter Hs :=
  first
    [ apply counter_ok_insert; apply is_u64_Uint; u64_lia
    | apply counter_ok_insert_ne; [key_neq | wf_counter Hs]
    | apply (wf_total_projects _ Hs)
    | apply (wf_total_credits_issued _ Hs)
    | apply (wf_total_credits_retired _ Hs) ].

Ltac wf_locals_goal Hs :=
  first
    [ apply (wf_locals _ Hs)
    | apply map_Forall_insert_2; [apply is_u64_Uint; u64_lia | wf_locals_goal Hs] ].

Ltac wf_opted_goal Hs :=
  first
    [ apply (wf_opted _ Hs)
    | apply wf_opted_insert; [by apply is_opted_true | wf_opted_goal Hs] ].

Ltac wf_goal Hs :=
  local_bounds Hs;
  split; cbn [globals locals opted_in paid_in];
  [wf_locals_goal Hs | wf_counter Hs .. | wf_opted_goal Hs].

Lemma wf_step s c m : wf s -> wf (step s c m).
Proof.
  intros Hs. unfold step.
  destruct (route c m s) as [[o s']|e] eqn:E; [|done].
  destruct m.
  - rewrite route_initialize, initialize_marketplace_eq in E.
    repeat case_match; simplify_eq. wf_goal Hs.
  - rewrite route_register, register_project_eq in E.
    repeat case_match; simplify_eq. wf_goal Hs.
  - rewrite route_purchase_eq in E.
    repeat case_match; simplify_eq. wf_goal Hs.
  - rewrite route_retire, retire_credits_eq in E.
    repeat case_match; simplify_eq. wf_goal Hs.
  - rewrite route_transfer, transfer_credits_eq in E.
    repeat case_match; simplify_eq. wf_goal Hs.
  - apply route_query_state in E; [by subst | done].
  - apply route_query_state in E; [by subst | done].
  - rewrite route_opt_in in E. case_match; simplify_eq.
    split; cbn [globals locals opted_in paid_in]; try apply Hs.
    intros a k Hk. apply (wf_opted _ Hs) in Hk. set_solver.
  - rewrite route_close_out in E. case_match; simplify_eq.
    split; cbn [globals locals opted_in paid_in]; try apply Hs.
    + intros [a k] v Hv. apply forget_lookup in Hv as [Hv _].
      by apply (wf_locals _ Hs) in Hv.
    + intros a k [v Hv]. apply forget_lookup in Hv as [Hv Hne].
      assert (a ∈ opted_in s) by (apply (wf_opted _ Hs) with k; eauto).
      set_solver.
  - rewrite route_clear_state, route_close_out in E. case_match; simplify_eq.
    split; cbn [globals locals opted_in paid_in]; try apply Hs.
    + intros [a k] v Hv. apply forget_lookup in Hv as [Hv _].
      by apply (wf_locals _ Hs) in Hv.
    + intros a k [v Hv]. apply forget_lookup in Hv as [Hv Hne].
      assert (a ∈ opted_in s) by (apply (wf_opted _ Hs) with k; eauto).
      set_solver.
Qed.

Lemma reachable_wf s : reachable s -> wf s.
Proof. induction 1; [apply wf_empty | by apply wf_step]. Qed.

(** ** Conservation: sums over the stores *)

Lemma substring_skip (a b : string) (n m : nat) :
  String.substring (String.length a + n) m (a +:+ b) = String.substring n m b.
Proof. induction a as [|ch a IH]; [done|]. cbn. apply IH. Qed.

Lemma substring_prefix (x post : string) :
  String.substring 0 (String.length x) (x +:+ post) = x.
Proof.
  induction x as [|ch x IH].
  - by destruct post.
  - change (String ch x +:+ post) with (String ch (x +:+ post)).
    cbn [String.length String.substring]. by rewrite IH.
Qed.

Lemma record_total_credits_project_record name ty std tc price vint :
  tc < two64 ->
  record_total_credits (Bytes (project_record name ty std tc price vint)) = tc.
Proof.
  intros Htc. unfold record_total_credits, project_record.
  set (rest := "|" +:+ Itob price +:+ "|" +:+ Itob vint).
  set (pre := "|" +:+ Itob ty +:+ "|" +:+ Itob std +:+ "|").
  replace (name +:+ "|" +:+ Itob ty +:+ "|" +:+ Itob std +:+ "|" +:+ Itob tc +:+ rest)
    with (name +:+ pre +:+ Itob tc +:+ rest) by done.
  replace (String.length (name +:+ pre +:+ Itob tc +:+ rest) - 26)%nat
    with (String.length name + String.length pre)%nat.
  2:{ subst pre rest. rewrite !length_app, !length_Itob.
      change (String.length "|") with 1%nat. lia. }
  rewrite substring_skip.
  replace (String.length pre) with (String.length pre + 0)%nat by lia.
  rewrite substring_skip.
  rewrite <- (length_Itob tc) at 1. rewrite substring_prefix.
  by apply Btoi_Itob.
Qed.

Lemma project_key_inj i j :
  i < two64 -> j < two64 -> project_key i = project_key j -> i = j.
Proof.
  intros Hi Hj E. apply Itob_inj; [done..|].
  unfold project_key in E. by apply (inj _) in E.
Qed.

Lemma sum_below_ext k f g :
  (forall i, i < N.of_nat k -> f i = g i) -> sum_below k f = sum_below k g.
Proof.
  induction k as [|k IH]; intros Hfg; [done|]. cbn [sum_below].
  rewrite IH, Hfg; [done | lia | intros i Hi; apply Hfg; lia].
Qed.

(** The sum over the projects only reads [total_projects] and the records. *)
Lemma sum_project_credits_frame s s' :
  globals s' !! total_projects = globals s !! total_projects ->
  (forall i, globals s' !! project_key i = globals s !! project_key i) ->
  sum_project_credits s' = sum_project_credits s.
Proof.
  intros Hn Hrec. unfold sum_project_credits, global_uint. rewrite Hn.
  apply sum_below_ext. intros i _. unfold project_total_credits. by rewrite Hrec.
Qed.

Lemma named_part_comm (name : string) (j1 j2 : string * string) (z1 z2 : teal_value) (y : N) :
  named_part name j1 z1 + (named_part name j2 z2 + y) =
  named_part name j2 z2 + (named_part name j1 z1 + y).
Proof. lia. Qed.

Lemma named_part_here (name a : string) (v : teal_value) : named_part name (a, name) v = uint_of v.
Proof. unfold named_part. by case_decide. Qed.

Lemma named_part_other (name a name' : string) (v : teal_value) :
  name' <> name -> named_part name (a, name') v = 0.
Proof. intros. unfold named_part. by case_decide. Qed.

Lemma named_part_zero (name : string) (k : string * string) : named_part name k (Uint 0) = 0.
Proof. unfold named_part. by case_decide. Qed.

(** Writing one local value changes the sum by that value's part. *)
Lemma named_sum_insert (name : string) (l : gmap (string * string) teal_value)
    (k : string * string) (v : teal_value) :
  named_sum name (<[k := v]> l) + named_part name k (default (Uint 0) (l !! k)) =
  named_sum name l + named_part name k v.
Proof.
  unfold named_sum.
  destruct (l !! k) as [w|] eqn:E; cbn [default from_option].
  - rewrite <- (insert_delete_eq l k v).
    rewrite map_fold_insert_L;
      [|intros; apply named_part_comm | apply lookup_delete_eq].
    rewrite (map_fold_delete_L _ _ k w l);
      [|intros; apply named_part_comm | done].
    unfold id. lia.
  - rewrite map_fold_insert_L; [|intros; apply named_part_comm | done].
    rewrite named_part_zero. lia.
Qed.

(** Deleting an account's local store takes its value out of the sum. *)
Lemma named_sum_forget (name a : string) (l : gmap (string * string) teal_value) :
  named_sum name (forget a l) + uint_of (default (Uint 0) (l !! (a, name))) =
  named_sum name l.
Proof.
  induction l as [|[a' k'] x m Hm Hfold IH] using map_first_key_ind.
  - unfold forget. rewrite map_filter_empty. by rewrite lookup_empty.
  - unfold named_sum at 2.
    rewrite map_fold_insert_L; [|intros; apply named_part_comm | done].
    fold (named_sum name m). rewrite <- IH.
    destruct (decide (a' = a)) as [->|Hne].
    + unfold forget at 1.
      rewrite map_filter_insert_False by (cbn; tauto).
      rewrite delete_id by done. fold (forget a m).
      destruct (decide (k' = name)) as [->|Hk].
      * rewrite lookup_insert_eq, Hm, named_part_here. cbn. lia.
      * rewrite lookup_insert_ne by congruence.
        rewrite named_part_other by done. lia.
    + unfold forget at 1.
      rewrite map_filter_insert_True by (cbn; done). fold (forget a m).
      unfold named_sum at 1.
      rewrite map_fold_insert_L;
        [|intros; apply named_part_comm | by rewrite forget_lookup_ne].
      fold (named_sum name (forget a m)).
      rewrite lookup_insert_ne by congruence. lia.
Qed.

(** An account's value is part of the sum; so are two accounts' values. *)
Lemma named_sum_ge (name a : string) (l : gmap (string * string) teal_value) :
  uint_of (default (Uint 0) (l !! (a, name))) <= named_sum name l.
Proof. rewrite <- (named_sum_forget name a l). lia. Qed.


Lemma sum_credits_retired_named s :
  sum_credits_retired s = named_sum user_credits_retired (locals s).
Proof. reflexivity. Qed.

Lemma sum_credits_owned_named s :
  sum_credits_owned s = named_sum user_credits_owned (locals s).
Proof. reflexivity. Qed.

Lemma retired_of_le_sum s a : retired_of s a <= sum_credits_retired s.
Proof. rewrite sum_credits_retired_named. apply named_sum_ge. Qed.

Lemma balance_of_le_sum s a : balance_of s a <= sum_credits_owned s.
Proof. rewrite sum_credits_owned_named. apply named_sum_ge. Qed.


(** Writing a [credits_owned] balance leaves the retired sum alone, and the
    other way round. *)
Lemma named_sum_insert_other (name : string)
    (l : gmap (string * string) teal_value) (a name' : string) (v : teal_value) :
  name' <> name -> named_sum name (<[(a, name') := v]> l) = named_sum name l.
Proof.
  intros Hne. pose proof (named_sum_insert name l (a, name') v) as H.
  rewrite !named_part_other in H by done. lia.
Qed.

Lemma named_sum_insert_here (name : string)
    (l : gmap (string * string) teal_value) (a : string) (v : teal_value) :
  named_sum name (<[(a, name) := v]> l)
    + uint_of (default (Uint 0) (l !! (a, name))) =
  named_sum name l + uint_of v.
Proof.
  pose proof (named_sum_insert name l (a, name) v) as H.
  by rewrite !named_part_here in H.
Qed.

Lemma global_uint_of s k n :
  default (Uint 0) (globals s !! k) = Uint n -> global_uint s k = n.
Proof. unfold global_uint. by intros ->. Qed.

Lemma global_uint_frame s s' k :
  globals s' !! k = globals s !! k -> global_uint s' k = global_uint s k.
Proof. unfold global_uint. by intros ->. Qed.

Lemma global_uint_put g l o p k n :
  global_uint (mkState (<[k := Uint n]> g) l o p) k = n.
Proof. unfold global_uint. cbn [globals]. by rewrite lookup_insert_eq. Qed.

Lemma global_uint_put_ne g l o p k k0 v :
  k0 <> k ->
  global_uint (mkState (<[k0 := v]> g) l o p) k = global_uint (mkState g l o p) k.
Proof. intros. unfold global_uint. cbn [globals]. by rewrite lookup_insert_ne. Qed.

Lemma global_uint_globals g l o p l' o' p' k :
  global_uint (mkState g l o p) k = global_uint (mkState g l' o' p') k.
Proof. reflexivity. Qed.

Lemma sum_credits_retired_frame s s' :
  locals s' = locals s -> sum_credits_retired s' = sum_credits_retired s.
Proof. unfold sum_credits_retired. by intros ->. Qed.

Lemma sum_credits_owned_frame s s' :
  locals s' = locals s -> sum_credits_owned s' = sum_credits_owned s.
Proof. unfold sum_credits_owned. by intros ->. Qed.

Lemma local_uint_of s a k n :
  default (Uint 0) (locals s !! (a, k)) = Uint n -> local_uint s a k = n.
Proof. unfold local_uint. by intros ->. Qed.

Lemma wf_global_uint s k :
  counter_ok (globals s) k ->
  default (Uint 0) (globals s !! k) = Uint (global_uint s k).
Proof.
  intros Hk. unfold global_uint.
  destruct (default (Uint 0) (globals s !! k)) as [n|b] eqn:E; [done|].
  exfalso. by eapply default_not_bytes.
Qed.

Ltac if_cases :=
  repeat match goal with
  | |- context [if ?b then _ else _] => destruct b eqn:?
  end.

(** ** Reading balances after a write *)

Lemma local_uint_put g l o p a k n :
  local_uint (mkState g (<[(a, k) := Uint n]> l) o p) a k = n.
Proof. unfold local_uint. cbn [locals]. by rewrite lookup_insert_eq. Qed.

Lemma local_uint_put_ne g l o p a k a0 k0 v :
  (a0, k0) <> (a, k) ->
  local_uint (mkState g (<[(a0, k0) := v]> l) o p) a k =
  local_uint (mkState g l o p) a k.
Proof. intros. unfold local_uint. cbn [locals]. by rewrite lookup_insert_ne. Qed.

(** ** What each approved call does to the sums *)

Lemma purchase_sums s c id q p o s' :
  route c (PurchaseCredits id q p) s = Ok (o, s') ->
  sums_moved s s' q 0 0 0 /\
  global_uint s' total_credits_retired = global_uint s total_credits_retired /\
  paid_in s' = paid_in s + amount p /\ q * 1000000 <= amount p /\
  paid_in s' < two64.
Proof.
  rewrite route_purchase_eq. intros E.
  repeat case_match; simplify_eq. ltb_facts.
  match goal with
  | H : default _ (locals s !! (sender c, user_credits_owned)) = Uint ?x |- _ =>
      rename H into Hown, x into b end.
  split; [split|].
  - rewrite !sum_credits_owned_named. cbn [locals].
    pose proof (named_sum_insert_here user_credits_owned (locals s) (sender c)
                  (Uint (b + q))) as Hsum.
    rewrite Hown in Hsum. cbn [uint_of] in Hsum. lia.
  - rewrite !sum_credits_retired_named. cbn [locals].
    rewrite named_sum_insert_other by done. lia.
  - cbn [paid_in]. repeat split; try done.
    unfold global_uint. cbn [globals]. by rewrite lookup_insert_ne by key_neq.
Qed.

Lemma retire_sums s c q reason beneficiary o s' :
  route c (RetireCredits q reason beneficiary) s = Ok (o, s') ->
  sums_moved s s' 0 q q 0 /\
  global_uint s' total_credits_retired = global_uint s total_credits_retired + q /\
  paid_in s' = paid_in s /\ q <= balance_of s (sender c).
Proof.
  rewrite route_retire, retire_credits_eq. intros E.
  repeat case_match; simplify_eq. ltb_facts.
  match goal with
  | H : default _ (locals s !! (sender c, user_credits_owned)) = Uint ?x |- _ =>
      rename H into Hown, x into b end.
  match goal with
  | H : default _ (locals s !! (sender c, user_credits_retired)) = Uint ?x |- _ =>
      rename H into Hret, x into r end.
  match goal with
  | H : default _ (globals s !! total_credits_retired) = Uint ?x |- _ =>
      rename H into Htot, x into t end.
  split; [split|].
  - rewrite !sum_credits_owned_named. cbn [locals].
    rewrite named_sum_insert_other by done.
    pose proof (named_sum_insert_here user_credits_owned (locals s) (sender c)
                  (Uint (b - q))) as Hsum.
    rewrite Hown in Hsum. cbn [uint_of] in Hsum. lia.
  - rewrite !sum_credits_retired_named. cbn [locals].
    pose proof (named_sum_insert_here user_credits_retired
                  (<[(sender c, user_credits_owned) := Uint (b - q)]> (locals s))
                  (sender c) (Uint (r + q))) as Hsum.
    rewrite lookup_insert_ne, Hret in Hsum by key_neq.
    rewrite (named_sum_insert_other user_credits_retired (locals s) (sender c)
               user_credits_owned) in Hsum by done.
    cbn [uint_of] in Hsum. lia.
  - cbn [paid_in]. repeat split; try done.
    + rewrite global_uint_put_ne, global_uint_put by key_neq.
      by rewrite (global_uint_of s _ _ Htot).
    + unfold balance_of. by rewrite (local_uint_of s _ _ _ Hown).
Qed.

Lemma transfer_sums s c recipient q o s' :
  route c (TransferCredits recipient q) s = Ok (o, s') ->
  sums_moved s s' 0 0 0 0 /\
  global_uint s' total_credits_retired = global_uint s total_credits_retired /\
  paid_in s' = paid_in s.
Proof.
  rewrite route_transfer, transfer_credits_eq. intros E.
  repeat case_match; simplify_eq. ltb_facts.
  match goal with
  | H : default _ (locals s !! (sender c, user_credits_owned)) = Uint ?x |- _ =>
      rename H into Hown, x into b end.
  match goal with
  | H : default _ (<[_ := _]> (locals s) !! (recipient, user_credits_owned)) = Uint ?x |- _ =>
      rename H into Hrec, x into t end.
  split; [split|].
  - rewrite !sum_credits_owned_named. cbn [locals].
    pose proof (named_sum_insert_here user_credits_owned
                  (<[(sender c, user_credits_owned) := Uint (b - q)]> (locals s))
                  recipient (Uint (t + q))) as Hsum1.
    rewrite Hrec in Hsum1. cbn [uint_of] in Hsum1.
    pose proof (named_sum_insert_here user_credits_owned (locals s) (sender c)
                  (Uint (b - q))) as Hsum2.
    rewrite Hown in Hsum2. cbn [uint_of] in Hsum2. lia.
  - rewrite !sum_credits_retired_named. cbn [locals].
    rewrite !named_sum_insert_other by done. lia.
  - cbn [paid_in]. split; [|done].
    unfold global_uint. cbn [globals]. by rewrite lookup_insert_ne by key_neq.
Qed.

Lemma close_out_sums s c o s' :
  route c CloseOut s = Ok (o, s') ->
  sums_moved s s' 0 (balance_of s (sender c)) 0 (retired_of s (sender c)) /\
  globals s' = globals s /\ paid_in s' = paid_in s.
Proof.
  rewrite route_close_out. intros E. case_match; simplify_eq.
  split; [split|done].
  - rewrite !sum_credits_owned_named. cbn [locals].
    pose proof (named_sum_forget user_credits_owned (sender c) (locals s)).
    unfold balance_of, local_uint. lia.
  - rewrite !sum_credits_retired_named. cbn [locals].
    pose proof (named_sum_forget user_credits_retired (sender c) (locals s)).
    unfold retired_of, local_uint. lia.
Qed.

Lemma initialize_sums s c fee admin o s' :
  route c (InitializeMarketplace fee admin) s = Ok (o, s') ->
  locals s' = locals s /\ paid_in s' = paid_in s /\
  global_uint s' total_credits_retired = 0 /\
  global_uint s' total_credits_issued = 0 /\
  global_uint s' total_projects = 0.
Proof.
  rewrite route_initialize, initialize_marketplace_eq. intros E.
  repeat case_match; simplify_eq. cbn [locals paid_in].
  repeat split.
  - by rewrite global_uint_put.
  - by rewrite global_uint_put_ne, global_uint_put by key_neq.
  - by rewrite !global_uint_put_ne, global_uint_put by key_neq.
Qed.

Lemma register_frame s c name ty std tc price vint o s' :
  route c (RegisterProject name ty std tc price vint) s = Ok (o, s') ->
  locals s' = locals s /\ paid_in s' = paid_in s /\ opted_in s' = opted_in s /\
  global_uint s' total_credits_retired = global_uint s total_credits_retired.
Proof.
  rewrite route_register, register_project_eq. intros E.
  repeat case_match; simplify_eq. cbn [locals paid_in opted_in].
  repeat split.
  unfold global_uint. cbn [globals]. by rewrite !lookup_insert_ne by key_neq.
Qed.

Lemma opt_in_frame s c o s' :
  route c OptIn s = Ok (o, s') ->
  locals s' = locals s /\ paid_in s' = paid_in s /\ globals s' = globals s.
Proof. rewrite route_opt_in. intros E. by case_match; simplify_eq. Qed.

(** ** What fits in the global store *)

Ltac leb_cases :=
  repeat match goal with
  | |- context [Nat.leb ?x ?y] => destruct (Nat.leb_spec x y)
  end; cbn [andb]; first [reflexivity | exfalso; lia].

Ltac fits_lengths :=
  unfold fits, project_key, purchase_key, retirement_key, transfer_key,
    project_record, purchase_record, retirement_record, transfer_record,
    admin_address;
  rewrite ?length_app, ?length_Itob; cbn [String.length].

Lemma fits_admin admin :
  fits admin_address (Bytes admin) = Nat.leb (String.length admin) 115.
Proof. fits_lengths. leb_cases. Qed.





(** ** Conservation, call by call *)

Lemma issued_conserved_step s c m :
  issued_conserved s -> issued_conserved (step s c m).
Proof.
  unfold issued_conserved. intros Hi. unfold step.
  destruct (route c m s) as [[o s']|e] eqn:E; [|done].
  destruct m.
  - apply initialize_sums in E as (_ & _ & _ & -> & Hn).
    unfold sum_project_credits. by rewrite Hn.
  - rewrite route_register, register_project_eq in E.
    repeat case_match; simplify_eq. ltb_facts.
    match goal with
    | H : default _ (globals s !! total_projects) = Uint ?x |- _ =>
        rename H into Hn, x into n end.
    match goal with
    | H : default _ (globals s !! total_credits_issued) = Uint ?x |- _ =>
        rename H into Hiss, x into i end.
    apply global_uint_of in Hn, Hiss.
    unfold sum_project_credits.
    rewrite global_uint_put, global_uint_put_ne, global_uint_put by key_neq.
    replace (N.to_nat (n + 1)) with (S (N.to_nat n)) by lia.
    cbn [sum_below]. rewrite N2Nat.id.
    f_equal.
    + rewrite <- Hiss, Hi. unfold sum_project_credits. rewrite Hn.
      apply sum_below_ext. intros j Hj. unfold project_total_credits.
      cbn [globals]. rewrite !lookup_insert_ne; [done|..]; try key_neq.
      intros Heq. apply project_key_inj in Heq; u64_lia.
    + unfold project_total_credits. cbn [globals].
      rewrite lookup_insert_ne, lookup_insert_ne, lookup_insert_eq by key_neq.
      symmetry. apply record_total_credits_project_record.
      u64_lia.
  - rewrite route_purchase_eq in E. repeat case_match; simplify_eq.
    rewrite (global_uint_frame s), Hi.
    + symmetry. apply sum_project_credits_frame; [|intros j]; cbn [globals];
        by rewrite lookup_insert_ne by key_neq.
    + cbn [globals]. by rewrite lookup_insert_ne by key_neq.
  - rewrite route_retire, retire_credits_eq in E. repeat case_match; simplify_eq.
    rewrite (global_uint_frame s), Hi.
    + symmetry. apply sum_project_credits_frame; [|intros j]; cbn [globals];
        by rewrite !lookup_insert_ne by key_neq.
    + cbn [globals]. by rewrite !lookup_insert_ne by key_neq.
  - rewrite route_transfer, transfer_credits_eq in E. repeat case_match; simplify_eq.
    rewrite (global_uint_frame s), Hi.
    + symmetry. apply sum_project_credits_frame; [|intros j]; cbn [globals];
        by rewrite lookup_insert_ne by key_neq.
    + cbn [globals]. by rewrite lookup_insert_ne by key_neq.
  - apply route_query_state in E; [by subst | done].
  - apply route_query_state in E; [by subst | done].
  - apply opt_in_frame in E as (_ & _ & Hg).
    rewrite (global_uint_frame s), Hi by (by rewrite Hg).
    symmetry. apply sum_project_credits_frame; [|intros j]; by rewrite Hg.
  - apply close_out_sums in E as (_ & Hg & _).
    rewrite (global_uint_frame s), Hi by (by rewrite Hg).
    symmetry. apply sum_project_credits_frame; [|intros j]; by rewrite Hg.
  - rewrite route_clear_state in E. apply close_out_sums in E as (_ & Hg & _).
    rewrite (global_uint_frame s), Hi by (by rewrite Hg).
    symmetry. apply sum_project_credits_frame; [|intros j]; by rewrite Hg.
Qed.

Lemma negb_eqb_false n : negb (n =? 0) = false <-> n = 0.
Proof. rewrite negb_false_iff. apply N.eqb_eq. Qed.

Lemma close_out_retired s c m :
  is_close_out m = true ->
  retired_conserved s ->
  retired_conserved (step s c m) <->
    is_opted s (sender c) && negb (retired_of s (sender c) =? 0) = false.
Proof.
  intros Hm Hr. unfold retired_conserved in *.
  assert (route c m s = route c CloseOut s) as Em
    by (destruct m; try discriminate; done).
  unfold step. rewrite Em.
  destruct (route c CloseOut s) as [[o s']|e] eqn:E.
  - pose proof E as E'. apply close_out_sums in E' as ([_ Hsum] & Hg & _).
    rewrite route_close_out in E. destruct (is_opted s (sender c)); [|done].
    rewrite (global_uint_frame s) by (by rewrite Hg).
    cbn [andb]. rewrite negb_eqb_false. lia.
  - rewrite route_close_out in E. destruct (is_opted s (sender c)); [done|].
    done.
Qed.

(** A call keeps the retired half of [conservation] exactly when it is not
    one of the calls [breaks_retired_sum] names. *)
Lemma retired_conserved_step s c m :
  retired_conserved s ->
  retired_conserved (step s c m) <-> breaks_retired_sum c m s = false.
Proof.
  intros Hr.
  destruct m; try (by apply close_out_retired).
  - (* initialize_marketplace *)
    unfold retired_conserved in *. cbn [breaks_retired_sum]. unfold step.
    destruct (route c _ s) as [[o s']|e] eqn:E.
    + pose proof E as E'. apply initialize_sums in E' as (Hl & _ & Ht & _).
      rewrite route_initialize, initialize_marketplace_eq in E.
      destruct (String.eqb (sender c) (creator_address c)); [|done].
      destruct (fits admin_address (Bytes admin)); [|done].
      cbn [andb]. rewrite negb_eqb_false, Ht.
      rewrite (sum_credits_retired_frame s s') by done. lia.
    + rewrite route_initialize, initialize_marketplace_eq in E.
      destruct (String.eqb (sender c) (creator_address c)); [|done].
      destruct (fits admin_address (Bytes admin)); done.
  - (* register_project *)
    cbn [breaks_retired_sum]. split; [done|intros _].
    unfold retired_conserved in *. unfold step.
    destruct (route c _ s) as [[o s']|e] eqn:E; [|done].
    apply register_frame in E as (Hl & _ & _ & ->).
    by rewrite (sum_credits_retired_frame s s').
  - (* purchase_credits *)
    cbn [breaks_retired_sum]. split; [done|intros _].
    unfold retired_conserved in *. unfold step.
    destruct (route c _ s) as [[o s']|e] eqn:E; [|done].
    apply purchase_sums in E as ([_ Hsum] & -> & _). lia.
  - (* retire_credits *)
    cbn [breaks_retired_sum]. split; [done|intros _].
    unfold retired_conserved in *. unfold step.
    destruct (route c _ s) as [[o s']|e] eqn:E; [|done].
    apply retire_sums in E as ([_ Hsum] & -> & _). lia.
  - (* transfer_credits *)
    cbn [breaks_retired_sum]. split; [done|intros _].
    unfold retired_conserved in *. unfold step.
    destruct (route c _ s) as [[o s']|e] eqn:E; [|done].
    apply transfer_sums in E as ([_ Hsum] & -> & _). lia.
  - cbn [breaks_retired_sum]. split; [done|intros _]. unfold step.
    destruct (route c _ s) as [[o s']|e] eqn:E; [|done].
    apply route_query_state in E; [by subst | done].
  - cbn [breaks_retired_sum]. split; [done|intros _]. unfold step.
    destruct (route c _ s) as [[o s']|e] eqn:E; [|done].
    apply route_query_state in E; [by subst | done].
  - cbn [breaks_retired_sum]. split; [done|intros _].
    unfold retired_conserved in *. unfold step.
    destruct (route c _ s) as [[o s']|e] eqn:E; [|done].
    apply opt_in_frame in E as (Hl & _ & Hg).
    rewrite (global_uint_frame s) by (by rewrite Hg).
    by rewrite (sum_credits_retired_frame s s').
Qed.

Lemma conservation_halves s :
  conservation s <-> issued_conserved s /\ retired_conserved s.
Proof. reflexivity. Qed.

Lemma conservation_empty : conservation empty_state.
Proof. split; reflexivity. Qed.

Lemma reachable_issued_conserved s : reachable s -> issued_conserved s.
Proof.
  induction 1; [apply conservation_empty | by apply issued_conserved_step].
Qed.

(** ** Every credit is paid for *)

Lemma backed_empty : backed empty_state.
Proof. repeat split; vm_compute; done. Qed.

Lemma backed_step s c m : backed s -> backed (step s c m).
Proof.
  intros (H1 & H2 & H3). unfold step.
  destruct (route c m s) as [[o s']|e] eqn:E; [|done].
  unfold backed.
  destruct m.
  - apply initialize_sums in E as (Hl & -> & -> & _).
    rewrite (sum_credits_retired_frame s s'), (sum_credits_owned_frame s s') by done.
    lia.
  - apply register_frame in E as (Hl & -> & _ & ->).
    rewrite (sum_credits_retired_frame s s'), (sum_credits_owned_frame s s') by done.
    lia.
  - apply purchase_sums in E as ([Ho Hr] & -> & -> & Hq & Hp).
    lia.
  - apply retire_sums in E as ([Ho Hr] & -> & -> & Hq). lia.
  - apply transfer_sums in E as ([Ho Hr] & -> & ->). lia.
  - apply route_query_state in E; [by subst | done].
  - apply route_query_state in E; [by subst | done].
  - apply opt_in_frame in E as (Hl & -> & Hg).
    rewrite (global_uint_frame s) by (by rewrite Hg).
    rewrite (sum_credits_retired_frame s s'), (sum_credits_owned_frame s s') by done.
    lia.
  - apply close_out_sums in E as ([Ho Hr] & Hg & ->).
    rewrite (global_uint_frame s) by (by rewrite Hg). lia.
  - rewrite route_clear_state in E.
    apply close_out_sums in E as ([Ho Hr] & Hg & ->).
    rewrite (global_uint_frame s) by (by rewrite Hg). lia.
Qed.

Lemma reachable_backed s : reachable s -> backed s.
Proof. induction 1; [apply backed_empty | by apply backed_step]. Qed.

(** So the additions of the three credit movements stay inside [uint64]. *)
Lemma retire_no_overflow s a q :
  reachable s -> q <= balance_of s a ->
  retired_of s a + q < two64 /\ global_uint s total_credits_retired + q < two64.
Proof.
  intros Hs Hq. destruct (reachable_backed s Hs) as (H1 & H2 & H3).
  pose proof (balance_of_le_sum s a). pose proof (retired_of_le_sum s a).
  change two64 with 18446744073709551616 in *. lia.
Qed.



(** ** The calls that move credits, on a reachable store *)

Lemma retire_credits_reach s c q reason beneficiary :
  reachable s ->
  route c (RetireCredits q reason beneficiary) s =
    if is_opted s (sender c) then
      if q <=? balance_of s (sender c) then
        if fits (retirement_key (sender c) (latest_timestamp c))
                (Bytes (retirement_record q reason beneficiary)) then
          Ok (NoOutput, mkState
               (<[retirement_key (sender c) (latest_timestamp c) :=
                    Bytes (retirement_record q reason beneficiary)]>
                 (<[total_credits_retired :=
                      Uint (global_uint s total_credits_retired + q)]> (globals s)))
               (<[(sender c, user_credits_retired) :=
                    Uint (retired_of s (sender c) + q)]>
                 (<[(sender c, user_credits_owned) :=
                      Uint (balance_of s (sender c) - q)]> (locals s)))
               (opted_in s) (paid_in s))
        else Err StorageLimit
      else Err InsufficientBalance
    else Err NotOptedIn.
Proof.
  intros Hr. pose proof (reachable_wf s Hr) as Hs.
  rewrite route_retire, retire_credits_eq.
  destruct (wf_local_uint s (sender c) user_credits_owned Hs) as [-> _].
  destruct (wf_local_uint s (sender c) user_credits_retired Hs) as [-> _].
  rewrite (wf_global_uint s _ (wf_total_credits_retired s Hs)).
  fold (balance_of s (sender c)). fold (retired_of s (sender c)).
  destruct (is_opted s (sender c)); [|done].
  destruct (q <=? balance_of s (sender c)) eqn:Hq; [|done].
  apply N.leb_le in Hq.
  destruct (retire_no_overflow s (sender c) q Hr Hq) as [H1 H2].
  apply N.ltb_lt in H1, H2. rewrite H1, H2. by if_cases.
Qed.




Lemma get_user_credits_reach s c user :
  reachable s ->
  route c (GetUserCredits user) s =
    if available c user then
      if is_opted s user then Ok (OutUint (balance_of s user), s)
      else Err NotOptedIn
    else Err UnavailableAccount.
Proof.
  intros Hr. pose proof (reachable_wf s Hr) as Hs.
  rewrite route_get_user_credits, get_user_credits_eq.
  destruct (wf_local_uint s user user_credits_owned Hs) as [-> _].
  by if_cases.
Qed.

(** ** The scenario states are reachable *)

Lemma reachable_run s ops : reachable s -> reachable (run s ops).
Proof.
  revert s. induction ops as [|[c m] ops IH]; intros s Hs; [done|].
  cbn. apply IH. by apply reach_step.
Qed.

Lemma reachable_opted : reachable opted.
Proof. apply reachable_run, reach_created. Qed.

Lemma reachable_initialized : reachable initialized.
Proof. apply reach_step, reachable_opted. Qed.

Lemma reachable_with_forest : reachable with_forest.
Proof. apply reach_step, reachable_initialized. Qed.

Lemma reachable_B_has_10 : reachable B_has_10.
Proof. apply reach_step, reachable_with_forest. Qed.

Lemma reachable_B_has_5 : reachable B_has_5.
Proof. apply reach_step, reachable_with_forest. Qed.

Lemma reachable_B_retired_10 : reachable B_retired_10.
Proof. apply reach_step, reachable_B_has_10. Qed.

(** * The claims *)

Ltac conjuncts := repeat match goal with |- _ /\ _ => split end.

(** ** C1: the price charged by [purchase_credits] *)

Lemma purchase_approved_cost s c id q p o s' :
  route c (PurchaseCredits id q p) s = Ok (o, s') -> q * 1000000 <= amount p.
Proof.
  rewrite route_purchase_eq. intros E.
  repeat case_match; simplify_eq. by ltb_facts.
Qed.

(** C1.  Project 0 is registered with [price_per_credit] 50, yet
    [purchase_credits(0, 10, payment=500)] is rejected with
    [InsufficientPayment] and the buyer's balance stays 0: the program
    charges 1000000 per credit, whatever the project record says.  A payment
    of 400 is rejected as well.  Calls with payment 9999999 and 10000000
    bracket the price the program does charge. *)
Theorem purchase_ignores_registered_price :
  globals with_forest !! project_key 0
    = Some (Bytes (project_record "Forest X" 1 1 1000 50 2023)) /\
  route (tx B 3) (PurchaseCredits 0 10 (pay 500)) with_forest
    = Err InsufficientPayment /\
  balance_of (step with_forest (tx B 3) (PurchaseCredits 0 10 (pay 500))) B = 0 /\
  route (tx B 3) (PurchaseCredits 0 10 (pay 400)) with_forest
    = Err InsufficientPayment /\
  route (tx B 3) (PurchaseCredits 0 10 (pay 9999999)) with_forest
    = Err InsufficientPayment /\
  balance_of (step with_forest (tx B 3) (PurchaseCredits 0 10 (pay 10000000))) B
    = 10.
Proof. conjuncts; vm_compute; reflexivity. Qed.

(** ** C2: calling [initialize_marketplace] again *)



(** ** C3: calls before [initialize_marketplace] *)

(** C3, counterexample.  On the freshly created application, where no config
    is stored and [B] and [C] have opted in, [purchase_credits] is approved
    and credits the buyer; the buyer can then transfer and retire. *)
Lemma purchase_before_initialize_approved :
  uninitialized opted /\
  route (tx B 1) (PurchaseCredits 0 3 (pay 3000000)) opted
    <> Err NotInitialized /\
  is_approved (route (tx B 1) (PurchaseCredits 0 3 (pay 3000000)) opted)
    = true /\
  balance_of (step opted (tx B 1) (PurchaseCredits 0 3 (pay 3000000))) B = 3 /\
  balance_of
    (run opted
       [(tx B 1, PurchaseCredits 0 3 (pay 3000000));
        (tx B 2, TransferCredits C 1);
        (tx B 3, RetireCredits 2 "early" "nobody")]) C = 1 /\
  retired_of
    (run opted
       [(tx B 1, PurchaseCredits 0 3 (pay 3000000));
        (tx B 2, TransferCredits C 1);
        (tx B 3, RetireCredits 2 "early" "nobody")]) B = 2.
Proof. conjuncts; try (vm_compute; reflexivity). vm_compute. discriminate. Qed.

Lemma route_never_not_initialized c m s : route c m s <> Err NotInitialized.
Proof.
  destruct m.
  - rewrite route_initialize, initialize_marketplace_eq. repeat case_match; by simplify_eq.
  - rewrite route_register, register_project_eq. repeat case_match; by simplify_eq.
  - rewrite route_purchase_eq. repeat case_match; by simplify_eq.
  - rewrite route_retire, retire_credits_eq. repeat case_match; by simplify_eq.
  - rewrite route_transfer, transfer_credits_eq. repeat case_match; by simplify_eq.
  - unfold_prog. repeat case_match; by simplify_eq.
  - unfold_prog. repeat case_match; by simplify_eq.
  - rewrite route_opt_in. by case_match.
  - rewrite route_close_out. by case_match.
  - rewrite route_clear_state, route_close_out. by case_match.
Qed.

Lemma register_project_uninitialized s c name ty std tc price vint :
  uninitialized s ->
  route c (RegisterProject name ty std tc price vint) s = Err TypeMismatch.
Proof.
  unfold uninitialized. intros Hs.
  by rewrite route_register, register_project_eq, Hs.
Qed.

Lemma with_config_put fee admin g l o p k v :
  k <> admin_address -> k <> marketplace_fee ->
  with_config fee admin (mkState (<[k := v]> g) l o p) =
  mkState (<[k := v]> (globals (with_config fee admin (mkState g l o p)))) l o p.
Proof.
  intros H1 H2. unfold with_config. cbn [globals locals opted_in paid_in]. f_equal.
  rewrite (insert_insert_ne _ k admin_address) by done.
  by rewrite (insert_insert_ne _ k marketplace_fee) by done.
Qed.

(** The calls that move credits never read the config. *)
Lemma moves_credits_config_independent s c m fee admin :
  moves_credits m = true ->
  route c m (with_config fee admin s) = result_map (with_config fee admin) (route c m s).
Proof.
  intros Hm. destruct s as [g l o p]. destruct m; try discriminate.
  - rewrite !route_purchase_eq. unfold is_opted.
    cbn [locals globals opted_in paid_in with_config].
    repeat case_match; simplify_eq; try done.
    cbn [result_map]. rewrite with_config_put by key_neq. done.
  - rewrite !route_retire, !retire_credits_eq. unfold is_opted.
    cbn [locals globals opted_in paid_in with_config].
    rewrite !lookup_insert_ne by key_neq.
    repeat case_match; simplify_eq; try done.
    cbn [result_map]. rewrite !with_config_put by key_neq. done.
  - rewrite !route_transfer, !transfer_credits_eq. unfold is_opted.
    cbn [locals globals opted_in paid_in with_config].
    repeat case_match; simplify_eq; try done.
    cbn [result_map]. rewrite with_config_put by key_neq. done.
Qed.

(** C3, amended.  While no config is stored, [register_project] is rejected
    for every caller and every argument (the comparison of the sender with
    the absent admin stops the program) and changes nothing.  The calls that
    move credits, [purchase_credits], [retire_credits] and
    [transfer_credits], are not gated on initialization: each is approved or
    rejected exactly as it would be with a config stored, with the same
    writes, and no call at all is rejected with [NotInitialized]. *)
Theorem uninitialized_calls s c :
  uninitialized s ->
  (forall name ty std tc price vint,
     route c (RegisterProject name ty std tc price vint) s = Err TypeMismatch /\
     step s c (RegisterProject name ty std tc price vint) = s) /\
  (forall m fee admin, moves_credits m = true ->
     route c m (with_config fee admin s)
       = result_map (with_config fee admin) (route c m s)) /\
  (forall m, route c m s <> Err NotInitialized).
Proof.
  intros Hs. split; [|split].
  - intros. pose proof (register_project_uninitialized s c name ty std tc price vint Hs) as E.
    split; [done|]. by eapply step_rejected.
  - intros. by apply moves_credits_config_independent.
  - intros. apply route_never_not_initialized.
Qed.

Lemma uninitialized_calls_witness :
  route (tx admin_A 1) (RegisterProject "Forest X" 1 1 1000 50 2023) opted
    = Err TypeMismatch /\
  route (tx B 1) (PurchaseCredits 0 3 (pay 3000000)) (with_config 100 admin_A opted)
    = result_map (with_config 100 admin_A)
        (route (tx B 1) (PurchaseCredits 0 3 (pay 3000000)) opted).
Proof.
  assert (uninitialized opted) as H by (vm_compute; reflexivity).
  destruct (uninitialized_calls opted (tx admin_A 1) H) as (Hreg & _).
  destruct (uninitialized_calls opted (tx B 1) H) as (_ & Hmove & _).
  split.
  - apply Hreg.
  - apply Hmove. reflexivity.
Defined.

(** ** C4: conservation *)

Lemma trace_issued_conserved s ops :
  issued_conserved s -> Forall issued_conserved (trace s ops).
Proof.
  revert s. induction ops as [|[c m] ops IH]; intros s Hs; [constructor|].
  cbn [trace fst snd]. constructor.
  - by apply issued_conserved_step.
  - apply IH. by apply issued_conserved_step.
Qed.

Lemma trace_conservation s ops :
  conservation s ->
  Forall conservation (trace s ops) <-> harmless s ops = true.
Proof.
  revert s. induction ops as [|[c m] ops IH]; intros s Hs.
  - cbn. split; [done | constructor].
  - cbn [trace harmless fst snd]. rewrite Forall_cons, andb_true_iff, negb_true_iff.
    destruct Hs as [Hi Hr].
    pose proof (issued_conserved_step s c m Hi) as Hi'.
    pose proof (retired_conserved_step s c m Hr) as Hiff.
    split.
    + intros [Hc Hall]. split; [apply Hiff, Hc|]. by apply IH.
    + intros [Hb Hh]. assert (conservation (step s c m)) as Hc.
      { split; [done | by apply Hiff]. }
      split; [done | by apply IH].
Qed.

(** C4, counterexample.  Starting from the initialized state, the sequence
    register, purchase 10, retire 10, initialize ends in a state whose
    [total_credits_retired] is 0 while account [B] still has 10 retired
    credits: the second [initialize_marketplace] zeroes the aggregate and
    conservation no longer holds.  If [B] closes out instead, the ledger
    deletes its 10 retired credits while the aggregate stays 10. *)
Lemma second_initialize_breaks_conservation :
  run initialized
    [(tx admin_A 2, RegisterProject "Forest X" 1 1 1000 50 2023);
     (tx B 3, PurchaseCredits 0 10 (pay 10000000));
     (tx B 4, RetireCredits 10 "offset 2024" "Acme Corp");
     (tx deployer 5, InitializeMarketplace 250 C)] = reinitialized /\
  global_uint reinitialized total_credits_retired = 0 /\
  retired_of reinitialized B = 10 /\
  sum_credits_retired reinitialized = 10 /\
  ~ conservation reinitialized /\
  global_uint B_closed_out total_credits_retired = 10 /\
  sum_credits_retired B_closed_out = 0 /\
  ~ conservation B_closed_out.
Proof.
  conjuncts; try (vm_compute; reflexivity).
  - intros [_ H]. vm_compute in H. discriminate.
  - intros [_ H]. vm_compute in H. discriminate.
Qed.

(** C4, amended.  In every reachable state, and after every call of every
    sequence of calls run from it, approved or rejected,
    [total_credits_issued] is the sum of [total_credits] over the registered
    projects.  From a reachable state in which [total_credits_retired] is the
    sum of [credits_retired] over all accounts (the initialized state is
    one), the two agree after every call of a sequence exactly when no call
    of the sequence is an [initialize_marketplace] by the creator that zeroes
    a retirement counter that is not zero, or a close-out or clear-state of
    an account that has retired credits; such a call, and no other, makes
    the two differ. *)
Theorem conservation_outcome s0 ops :
  reachable s0 ->
  issued_conserved s0 /\
  Forall issued_conserved (trace s0 ops) /\
  (retired_conserved s0 ->
     (Forall conservation (trace s0 ops) <-> harmless s0 ops = true) /\
     (forall c m,
        conservation (step s0 c m) <-> breaks_retired_sum c m s0 = false)).
Proof.
  intros Hs. pose proof (reachable_issued_conserved s0 Hs) as Hi.
  split; [done|]. split; [by apply trace_issued_conserved|].
  intros Hr. split.
  - by apply trace_conservation.
  - intros c m.
    rewrite <- (retired_conserved_step s0 c m Hr).
    split; [by intros [_ ?]|]. intros Hr'. split; [|done].
    by apply issued_conserved_step.
Qed.

Lemma conservation_outcome_witness :
  Forall conservation
    (trace initialized
       [(tx admin_A 2, RegisterProject "Forest X" 1 1 1000 50 2023);
        (tx deployer 2, InitializeMarketplace 100 admin_A);
        (tx B 3, PurchaseCredits 0 10 (pay 10000000));
        (tx B 4, TransferCredits C 4);
        (tx C 5, RetireCredits 4 "offset 2024" "Acme Corp");
        (tx B 6, RetireCredits 7 "too many" "Acme Corp");
        (tx C 7, GetUserCredits B);
        (tx B 8, CloseOut)]) /\
  harmless initialized
    [(tx admin_A 2, RegisterProject "Forest X" 1 1 1000 50 2023);
     (tx B 3, PurchaseCredits 0 10 (pay 10000000));
     (tx B 4, RetireCredits 10 "offset 2024" "Acme Corp");
     (tx deployer 5, InitializeMarketplace 250 C)] = false.
Proof.
  split.
  - apply (conservation_outcome initialized).
    + apply reachable_initialized.
    + vm_compute. reflexivity.
    + vm_compute. reflexivity.
  - vm_compute. reflexivity.
Defined.

(** ** C5: the audit records *)

Lemma purchase_key_audit a t : is_audit_key (purchase_key a t) = true.
Proof. by destruct a. Qed.

Lemma retirement_key_audit a t : is_audit_key (retirement_key a t) = true.
Proof. by destruct a. Qed.

Lemma transfer_key_audit t : is_audit_key (transfer_key t) = true.
Proof. reflexivity. Qed.

Lemma project_key_not_audit n : is_audit_key (project_key n) = false.
Proof. reflexivity. Qed.

(** A key that holds an audit record is none of the keys the other writes
    of the program use. *)
Ltac not_audit HK :=
  let E := fresh in
  intros E; rewrite <- E in HK; cbv -[Itob] in HK; discriminate HK.

Lemma purchase_key_inj a t a' t' :
  String.length a = String.length a' -> t < two64 -> t' < two64 ->
  purchase_key a t = purchase_key a' t' -> a = a' /\ t = t'.
Proof.
  intros Hlen Ht Ht' E. unfold purchase_key in E.
  apply (inj _) in E. apply app_inj_length in E as [-> E]; [|done].
  apply (inj _) in E. split; [done|]. by apply Itob_inj.
Qed.

Lemma retirement_key_inj a t a' t' :
  String.length a = String.length a' -> t < two64 -> t' < two64 ->
  retirement_key a t = retirement_key a' t' -> a = a' /\ t = t'.
Proof.
  intros Hlen Ht Ht' E. unfold retirement_key in E.
  apply (inj _) in E. apply app_inj_length in E as [-> E]; [|done].
  apply (inj _) in E. split; [done|]. by apply Itob_inj.
Qed.

Lemma transfer_key_inj t t' :
  t < two64 -> t' < two64 -> transfer_key t = transfer_key t' -> t = t'.
Proof.
  intros Ht Ht' E. unfold transfer_key in E.
  apply (inj _) in E. by apply Itob_inj.
Qed.

(** Two calls share an audit key only when they fall in the same slot. *)
Lemma audit_key_same_slot c0 m0 c m k :
  ctx_ok c0 -> ctx_ok c ->
  audit_key c0 m0 = Some k -> audit_key c m = Some k -> same_slot c0 m0 c m.
Proof.
  intros [Hl0 Ht0] [Hl Ht] E0 E. unfold audit_key in *.
  destruct m0; try discriminate; destruct m; try discriminate;
    cbn in E0, E; rewrite <- E in E0; apply (inj Some) in E0; clear E;
    unfold same_slot; try (exfalso; revert E0; key_neq).
  - apply purchase_key_inj in E0 as [? ?]; [done | congruence | done..].
  - apply retirement_key_inj in E0 as [? ?]; [done | congruence | done..].
  - apply transfer_key_inj in E0; done.
Qed.

Lemma audit_write_lookup s c m o s' k v :
  route c m s = Ok (o, s') -> audit_entry c m = Some (k, v) ->
  is_audit_key k = true /\ globals s' !! k = Some v.
Proof.
  intros E Ha. destruct m; try discriminate; cbn in Ha; simplify_eq.
  - rewrite route_purchase_eq in E.
    repeat case_match; simplify_eq. cbn [globals].
    split; [apply purchase_key_audit | by rewrite lookup_insert_eq].
  - rewrite route_retire, retire_credits_eq in E.
    repeat case_match; simplify_eq. cbn [globals].
    split; [apply retirement_key_audit | by rewrite lookup_insert_eq].
  - rewrite route_transfer, transfer_credits_eq in E.
    repeat case_match; simplify_eq. cbn [globals].
    split; [apply transfer_key_audit | by rewrite lookup_insert_eq].
Qed.

Lemma audit_others_kept s c m o s' k' :
  route c m s = Ok (o, s') ->
  is_audit_key k' = true -> audit_key c m <> Some k' ->
  globals s' !! k' = globals s !! k'.
Proof.
  intros E HK Hne. unfold audit_key in Hne. destruct m; cbn in Hne.
  - rewrite route_initialize, initialize_marketplace_eq in E.
    repeat case_match; simplify_eq. cbn [globals].
    by rewrite !lookup_insert_ne by not_audit HK.
  - rewrite route_register, register_project_eq in E.
    repeat case_match; simplify_eq. cbn [globals].
    by rewrite !lookup_insert_ne by not_audit HK.
  - rewrite route_purchase_eq in E.
    repeat case_match; simplify_eq. cbn [globals].
    by rewrite lookup_insert_ne by congruence.
  - rewrite route_retire, retire_credits_eq in E.
    repeat case_match; simplify_eq. cbn [globals].
    rewrite lookup_insert_ne by congruence.
    by rewrite lookup_insert_ne by not_audit HK.
  - rewrite route_transfer, transfer_credits_eq in E.
    repeat case_match; simplify_eq. cbn [globals].
    by rewrite lookup_insert_ne by congruence.
  - apply route_query_state in E; [by subst | done].
  - apply route_query_state in E; [by subst | done].
  - apply opt_in_frame in E as (_ & _ & Hg). by rewrite Hg.
  - apply close_out_sums in E as (_ & Hg & _). by rewrite Hg.
  - rewrite route_clear_state in E.
    apply close_out_sums in E as (_ & Hg & _). by rewrite Hg.
Qed.

(** C5, counterexample.  [B] transfers 3 credits to [C], and [C] transfers
    1 back, both at timestamp 9.  Both calls are approved and both use the
    key [transfer_9]: after the second call the record of the first is gone,
    replaced by the second, and the store has no more keys than before. *)
Lemma transfer_record_overwritten :
  let s1 := step B_has_5 (tx B 9) (TransferCredits C 3) in
  let s2 := step s1 (tx C 9) (TransferCredits B 1) in
  is_approved (route (tx B 9) (TransferCredits C 3) B_has_5) = true /\
  is_approved (route (tx C 9) (TransferCredits B 1) s1) = true /\
  audit_key (tx B 9) (TransferCredits C 3) = audit_key (tx C 9) (TransferCredits B 1) /\
  globals s1 !! transfer_key 9 = Some (Bytes (transfer_record B C 3)) /\
  globals s2 !! transfer_key 9 = Some (Bytes (transfer_record C B 1)) /\
  globals s2 !! transfer_key 9 <> globals s1 !! transfer_key 9 /\
  size (globals s2) = size (globals s1).
Proof.
  cbv zeta. conjuncts; try (vm_compute; reflexivity).
  vm_compute. discriminate.
Qed.

(** C5, amended.  An approved call writes the one audit record that
    [audit_entry] names for it (none for [initialize_marketplace],
    [register_project], the two queries and the bare calls), under a key made
    of the kind of call, the sender (purchases and retirements) and
    [Global.latest_timestamp()], and leaves the value under every other audit
    key as it was; a rejected call writes nothing.  A record already stored
    under that key is replaced: for 32-byte senders and [uint64] timestamps
    this happens exactly between calls of the same kind at the same timestamp
    and, for purchases and retirements, by the same sender. *)
Theorem audit_log_discipline s c m o s' :
  route c m s = Ok (o, s') ->
  (forall k v, audit_entry c m = Some (k, v) ->
     is_audit_key k = true /\ globals s' !! k = Some v) /\
  (is_Some (audit_entry c m) <-> moves_credits m = true) /\
  (forall k', is_audit_key k' = true -> audit_key c m <> Some k' ->
     globals s' !! k' = globals s !! k') /\
  (forall c0 m0 k, ctx_ok c0 -> ctx_ok c ->
     audit_key c0 m0 = Some k -> audit_key c m = Some k ->
     same_slot c0 m0 c m) /\
  (forall c0 m0 e, route c0 m0 s = Err e -> step s c0 m0 = s).
Proof.
  intros E. repeat split_and.
  - intros k v. by apply audit_write_lookup with s o.
  - destruct m; cbn; split; intros H; try done; by destruct H.
  - intros k'. by apply audit_others_kept with o.
  - intros c0 m0 k. apply audit_key_same_slot.
  - intros c0 m0 e. apply step_rejected.
Qed.

Lemma audit_log_discipline_witness :
  globals (step B_has_5 (tx B 9) (TransferCredits C 3)) !! transfer_key 9
    = Some (Bytes (transfer_record B C 3)) /\
  globals (step B_has_5 (tx B 9) (TransferCredits C 3)) !! purchase_key B 3
    = globals B_has_5 !! purchase_key B 3.
Proof.
  assert (route (tx B 9) (TransferCredits C 3) B_has_5
          = Ok (NoOutput, step B_has_5 (tx B 9) (TransferCredits C 3))) as E
    by (vm_compute; reflexivity).
  destruct (audit_log_discipline _ _ _ _ _ E) as (Hw & _ & Hk & _).
  split.
  - apply (Hw (transfer_key 9)). reflexivity.
  - apply Hk; [reflexivity | vm_compute; discriminate].
Defined.

(** ** C6: the price lookup and unregistered projects *)

Lemma get_project_price_constant id s :
  get_project_price id s = Ok (1000000, s).
Proof. reflexivity. Qed.

(** C6.  With no project registered ([total_projects] is 0 and there is no
    record for id 7) the price lookup for project 7 returns 1000000 instead
    of failing with [NotFound], and a purchase against project 7 is approved
    and credits the buyer. *)
Theorem purchase_of_unregistered_project_approved :
  global_uint initialized total_projects = 0 /\
  globals initialized !! project_key 7 = None /\
  get_project_price 7 initialized = Ok (1000000, initialized) /\
  is_approved (route (tx B 3) (PurchaseCredits 7 1 (pay 1000000)) initialized) = true /\
  balance_of (step initialized (tx B 3) (PurchaseCredits 7 1 (pay 1000000))) B = 1.
Proof. conjuncts; vm_compute; reflexivity. Qed.

(** ** C7: [retire_credits] *)

(** Only accounts that have opted in hold credits. *)
Lemma wf_balance_opted s a : wf s -> balance_of s a <> 0 -> is_opted s a = true.
Proof.
  intros Hs Hb. apply is_opted_true. apply (wf_opted s Hs a user_credits_owned).
  unfold balance_of, local_uint in Hb.
  destruct (locals s !! (a, user_credits_owned)); [eauto | done].
Qed.







(** ** C8: [transfer_credits] between two accounts *)



(** ** C9: who may initialize and register *)




(** ** C10: transfer to oneself *)




(** * Further properties of the contract *)

(** ** The two queries *)

Lemma substring_skip_len (a b : string) (k n m : nat) :
  String.length a = k ->
  String.substring (k + n) m (a +:+ b) = String.substring n m b.
Proof. intros <-. apply substring_skip. Qed.

Lemma substring_take (x post : string) (m : nat) :
  String.length x = m -> String.substring 0 m (x +:+ post) = x.
Proof. intros <-. apply substring_prefix. Qed.

Lemma append_empty_r (a : string) : a +:+ "" = a.
Proof.
  induction a as [|ch a IH]; [done|].
  change (String ch a +:+ "") with (String ch (a +:+ "")). by rewrite IH.
Qed.

Lemma field_at_Itob_here n post :
  n < two64 -> field_at 0 (Itob n +:+ post) = n.
Proof.
  intros Hn. unfold field_at.
  rewrite (substring_take _ _ 8) by apply length_Itob. by apply Btoi_Itob.
Qed.

Lemma get_marketplace_stats_wf s c :
  wf s ->
  route c GetMarketplaceStats s =
    Ok (OutString
          ("projects:" +:+ Itob (global_uint s total_projects) +:+
           "|issued:" +:+ Itob (global_uint s total_credits_issued) +:+
           "|retired:" +:+ Itob (global_uint s total_credits_retired)), s).
Proof.
  intros Hs. unfold_prog.
  rewrite (wf_global_uint s _ (wf_total_projects s Hs)).
  rewrite (wf_global_uint s _ (wf_total_credits_issued s Hs)).
  by rewrite (wf_global_uint s _ (wf_total_credits_retired s Hs)).
Qed.

Lemma wf_global_bound s k :
  counter_ok (globals s) k -> global_uint s k < two64.
Proof.
  intros Hk. eapply (default_u64 (globals s) k); [exact Hk|].
  by apply wf_global_uint.
Qed.

(** X1.  In every reachable state [get_user_credits] is approved exactly
    when the transaction makes the address available and the address has
    opted in; it then returns that account's [credits_owned], which is below
    [2^64].  For an address that has not opted in the call is rejected, not
    answered with 0.  Approved or rejected, the call writes nothing. *)
Theorem get_user_credits_outcome s c user :
  reachable s ->
  route c (GetUserCredits user) s =
    (if available c user then
       if is_opted s user then Ok (OutUint (balance_of s user), s)
       else Err NotOptedIn
     else Err UnavailableAccount) /\
  balance_of s user < two64 /\
  (is_opted s user = false -> balance_of s user = 0) /\
  step s c (GetUserCredits user) = s.
Proof.
  intros Hr. pose proof (reachable_wf s Hr) as Hs. repeat split_and.
  - by apply get_user_credits_reach.
  - apply (wf_local_uint s user user_credits_owned Hs).
  - intros Hno. destruct (decide (balance_of s user = 0)) as [|Hb]; [done|].
    apply (wf_balance_opted s user Hs) in Hb. congruence.
  - unfold step. rewrite get_user_credits_reach by done. by if_cases.
Qed.

Lemma get_user_credits_outcome_witness :
  route (tx C 9) (GetUserCredits B) B_has_5 = Ok (OutUint 5, B_has_5) /\
  route (tx C 9) (GetUserCredits E) B_has_5 = Err NotOptedIn /\
  route (tx C 9) (GetUserCredits admin_A) B_has_5 = Err UnavailableAccount.
Proof.
  destruct (get_user_credits_outcome B_has_5 (tx C 9) B reachable_B_has_5) as (H1 & _).
  destruct (get_user_credits_outcome B_has_5 (tx C 9) E reachable_B_has_5) as (H2 & _).
  destruct (get_user_credits_outcome B_has_5 (tx C 9) admin_A reachable_B_has_5)
    as (H3 & _).
  split; [|split].
  - rewrite H1. vm_compute. reflexivity.
  - rewrite H2. vm_compute. reflexivity.
  - rewrite H3. vm_compute. reflexivity.
Defined.

(** X2.  In every reachable state [get_marketplace_stats] is approved, writes
    nothing and returns a 50-byte string from which the three aggregates are
    read back at fixed offsets: [total_projects] at byte 9,
    [total_credits_issued] at byte 25 and [total_credits_retired] at byte 42,
    8 bytes each, big-endian. *)
Theorem get_marketplace_stats_decodes s c :
  reachable s ->
  exists b,
    route c GetMarketplaceStats s = Ok (OutString b, s) /\
    String.length b = 50%nat /\
    field_at 9 b = global_uint s total_projects /\
    field_at 25 b = global_uint s total_credits_issued /\
    field_at 42 b = global_uint s total_credits_retired.
Proof.
  intros Hs%reachable_wf. eexists. split; [by apply get_marketplace_stats_wf|].
  pose proof (wf_global_bound s _ (wf_total_projects s Hs)) as Hp.
  pose proof (wf_global_bound s _ (wf_total_credits_issued s Hs)) as Hi.
  pose proof (wf_global_bound s _ (wf_total_credits_retired s Hs)) as Hr.
  repeat split_and.
  - rewrite !length_app, !length_Itob. reflexivity.
  - unfold field_at at 1.
    rewrite (substring_skip_len "projects:" _ 9 0) by reflexivity.
    by apply field_at_Itob_here.
  - unfold field_at at 1.
    rewrite (substring_skip_len "projects:" _ 9 16) by reflexivity.
    rewrite (substring_skip_len (Itob _) _ 8 8) by apply length_Itob.
    rewrite (substring_skip_len "|issued:" _ 8 0) by reflexivity.
    by apply field_at_Itob_here.
  - unfold field_at at 1.
    rewrite (substring_skip_len "projects:" _ 9 33) by reflexivity.
    rewrite (substring_skip_len (Itob _) _ 8 25) by apply length_Itob.
    rewrite (substring_skip_len "|issued:" _ 8 17) by reflexivity.
    rewrite (substring_skip_len (Itob _) _ 8 9) by apply length_Itob.
    rewrite (substring_skip_len "|retired:" _ 9 0) by reflexivity.
    replace (Itob (global_uint s total_credits_retired))
      with (Itob (global_uint s total_credits_retired) +:+ "")
      by apply append_empty_r.
    by apply field_at_Itob_here.
Qed.

Lemma get_marketplace_stats_decodes_witness :
  exists b,
    route (tx C 9) GetMarketplaceStats B_retired_10 = Ok (OutString b, B_retired_10) /\
    String.length b = 50%nat /\
    field_at 9 b = global_uint B_retired_10 total_projects /\
    field_at 25 b = global_uint B_retired_10 total_credits_issued /\
    field_at 42 b = global_uint B_retired_10 total_credits_retired.
Proof.
  apply (get_marketplace_stats_decodes B_retired_10 (tx C 9)).
  apply reachable_B_retired_10.
Defined.

(** ** The stored records *)

Lemma append_assoc (a b c : string) : (a +:+ b) +:+ c = a +:+ b +:+ c.
Proof.
  induction a as [|ch a IH]; [done|].
  change ((String ch a +:+ b) +:+ c) with (String ch ((a +:+ b) +:+ c)).
  by rewrite IH.
Qed.

Lemma all_u64_cons n l : all_u64 (n :: l) = true -> n < two64 /\ all_u64 l = true.
Proof.
  unfold all_u64. cbn [forallb]. intros [H1 H2]%andb_true_iff.
  by apply N.ltb_lt in H1.
Qed.

Ltac u64_hyps H :=
  repeat (apply all_u64_cons in H as [? H]).

(** X3.  The record [register_project] stores can be read back: with the
    numeric arguments in [uint64], the five numbers sit in the last 44 bytes
    at fixed offsets from the end ([project_type] at -44,
    [verification_standard] at -35, [total_credits] at -26,
    [price_per_credit] at -17, [vintage] at -8) and the name is everything
    before the last 45 bytes, also when the name contains the separator. *)
Theorem project_record_decodes name ty std tc price vint :
  all_u64 [ty; std; tc; price; vint] = true ->
  let b := project_record name ty std tc price vint in
  let len := String.length b in
  len = (String.length name + 45)%nat /\
  String.substring 0 (len - 45) b = name /\
  field_at (len - 44) b = ty /\
  field_at (len - 35) b = std /\
  field_at (len - 26) b = tc /\
  field_at (len - 17) b = price /\
  field_at (len - 8) b = vint.
Proof.
  intros H b len. u64_hyps H.
  assert (len = (String.length name + 45)%nat) as Hlen.
  { subst len b. unfold project_record. rewrite !length_app, !length_Itob.
    change (String.length "|") with 1%nat. lia. }
  split; [exact Hlen|]. rewrite Hlen. subst b. unfold project_record.
  repeat split_and.
  - replace (String.length name + 45 - 45)%nat with (String.length name) by lia.
    by apply substring_take.
  - unfold field_at at 1.
    replace (String.length name + 45 - 44)%nat with (String.length name + 1)%nat by lia.
    rewrite (substring_skip_len name) by done.
    rewrite (substring_skip_len "|" _ 1 0) by done.
    by apply field_at_Itob_here.
  - unfold field_at at 1.
    replace (String.length name + 45 - 35)%nat with (String.length name + 10)%nat by lia.
    rewrite (substring_skip_len name) by done.
    rewrite (substring_skip_len "|" _ 1 9) by done.
    rewrite (substring_skip_len (Itob _) _ 8 1) by apply length_Itob.
    rewrite (substring_skip_len "|" _ 1 0) by done.
    by apply field_at_Itob_here.
  - unfold field_at at 1.
    replace (String.length name + 45 - 26)%nat with (String.length name + 19)%nat by lia.
    rewrite (substring_skip_len name) by done.
    rewrite (substring_skip_len "|" _ 1 18) by done.
    rewrite (substring_skip_len (Itob _) _ 8 10) by apply length_Itob.
    rewrite (substring_skip_len "|" _ 1 9) by done.
    rewrite (substring_skip_len (Itob _) _ 8 1) by apply length_Itob.
    rewrite (substring_skip_len "|" _ 1 0) by done.
    by apply field_at_Itob_here.
  - unfold field_at at 1.
    replace (String.length name + 45 - 17)%nat with (String.length name + 28)%nat by lia.
    rewrite (substring_skip_len name) by done.
    rewrite (substring_skip_len "|" _ 1 27) by done.
    rewrite (substring_skip_len (Itob _) _ 8 19) by apply length_Itob.
    rewrite (substring_skip_len "|" _ 1 18) by done.
    rewrite (substring_skip_len (Itob _) _ 8 10) by apply length_Itob.
    rewrite (substring_skip_len "|" _ 1 9) by done.
    rewrite (substring_skip_len (Itob _) _ 8 1) by apply length_Itob.
    rewrite (substring_skip_len "|" _ 1 0) by done.
    by apply field_at_Itob_here.
  - unfold field_at at 1.
    replace (String.length name + 45 - 8)%nat with (String.length name + 37)%nat by lia.
    rewrite (substring_skip_len name) by done.
    rewrite (substring_skip_len "|" _ 1 36) by done.
    rewrite (substring_skip_len (Itob _) _ 8 28) by apply length_Itob.
    rewrite (substring_skip_len "|" _ 1 27) by done.
    rewrite (substring_skip_len (Itob _) _ 8 19) by apply length_Itob.
    rewrite (substring_skip_len "|" _ 1 18) by done.
    rewrite (substring_skip_len (Itob _) _ 8 10) by apply length_Itob.
    rewrite (substring_skip_len "|" _ 1 9) by done.
    rewrite (substring_skip_len (Itob _) _ 8 1) by apply length_Itob.
    rewrite (substring_skip_len "|" _ 1 0) by done.
    rewrite <- (append_empty_r (Itob vint)).
    by apply field_at_Itob_here.
Qed.

Lemma project_record_decodes_witness :
  let b := project_record "A|B" 1 1 1000 50 2023 in
  String.substring 0 (String.length b - 45) b = "A|B" /\
  field_at (String.length b - 17) b = 50.
Proof.
  destruct (project_record_decodes "A|B" 1 1 1000 50 2023 eq_refl)
    as (_ & Hname & _ & _ & _ & Hprice & _).
  split; [exact Hname | exact Hprice].
Defined.

(** X4.  A retirement record does not determine the reason and the
    beneficiary: a separator at the end of the reason or at the start of the
    beneficiary gives the same bytes, so two calls that differ in both
    arguments are approved or rejected alike and leave the same stores. *)
Theorem retirement_record_ambiguous c s q reason x beneficiary :
  reason +:+ "|" +:+ x <> reason /\
  retirement_record q (reason +:+ "|" +:+ x) beneficiary
    = retirement_record q reason (x +:+ "|" +:+ beneficiary) /\
  route c (RetireCredits q (reason +:+ "|" +:+ x) beneficiary) s
    = route c (RetireCredits q reason (x +:+ "|" +:+ beneficiary)) s.
Proof.
  assert (retirement_record q (reason +:+ "|" +:+ x) beneficiary
          = retirement_record q reason (x +:+ "|" +:+ beneficiary)) as E.
  { unfold retirement_record. f_equal. f_equal.
    by rewrite append_assoc, append_assoc. }
  repeat split_and; [|exact E|].
  - intros H. apply (f_equal String.length) in H.
    rewrite !length_app in H. change (String.length "|") with 1%nat in H. lia.
  - by rewrite !route_retire, !retire_credits_eq, E.
Qed.

(** X5.  The record [purchase_credits] stores is 26 bytes and reads back:
    project id at byte 0, quantity at byte 9, amount paid at byte 18. *)
Theorem purchase_record_decodes id q paid :
  all_u64 [id; q; paid] = true ->
  let b := purchase_record id q paid in
  String.length b = 26%nat /\
  field_at 0 b = id /\ field_at 9 b = q /\ field_at 18 b = paid.
Proof.
  intros H b. u64_hyps H. subst b. unfold purchase_record. repeat split_and.
  - rewrite !length_app, !length_Itob. reflexivity.
  - by apply field_at_Itob_here.
  - unfold field_at at 1.
    rewrite (substring_skip_len (Itob _) _ 8 1) by apply length_Itob.
    rewrite (substring_skip_len "|" _ 1 0) by done.
    by apply field_at_Itob_here.
  - unfold field_at at 1.
    rewrite (substring_skip_len (Itob _) _ 8 10) by apply length_Itob.
    rewrite (substring_skip_len "|" _ 1 9) by done.
    rewrite (substring_skip_len (Itob _) _ 8 1) by apply length_Itob.
    rewrite (substring_skip_len "|" _ 1 0) by done.
    rewrite <- (append_empty_r (Itob paid)).
    by apply field_at_Itob_here.
Qed.

Lemma purchase_record_decodes_witness :
  field_at 0 (purchase_record 0 10 10000000) = 0 /\
  field_at 9 (purchase_record 0 10 10000000) = 10 /\
  field_at 18 (purchase_record 0 10 10000000) = 10000000.
Proof.
  destruct (purchase_record_decodes 0 10 10000000 eq_refl) as (_ & H).
  exact H.
Defined.

(** X6.  For 32-byte addresses and a [uint64] quantity, the record
    [transfer_credits] stores is 74 bytes and reads back: sender in bytes
    0..31, recipient in bytes 33..64, quantity at byte 66. *)
Theorem transfer_record_decodes from to q :
  String.length from = 32%nat -> String.length to = 32%nat -> q < two64 ->
  let b := transfer_record from to q in
  String.length b = 74%nat /\
  String.substring 0 32 b = from /\
  String.substring 33 32 b = to /\
  field_at 66 b = q.
Proof.
  intros Hf Ht Hq b. subst b. unfold transfer_record. repeat split_and.
  - rewrite !length_app, length_Itob, Hf, Ht. reflexivity.
  - by apply substring_take.
  - rewrite (substring_skip_len from _ 32 1) by done.
    rewrite (substring_skip_len "|" _ 1 0) by done.
    by apply substring_take.
  - unfold field_at at 1.
    rewrite (substring_skip_len from _ 32 34) by done.
    rewrite (substring_skip_len "|" _ 1 33) by done.
    rewrite (substring_skip_len to _ 32 1) by done.
    rewrite (substring_skip_len "|" _ 1 0) by done.
    rewrite <- (append_empty_r (Itob q)).
    by apply field_at_Itob_here.
Qed.

Lemma transfer_record_decodes_witness :
  String.substring 0 32 (transfer_record B C 3) = B /\
  String.substring 33 32 (transfer_record B C 3) = C /\
  field_at 66 (transfer_record B C 3) = 3.
Proof.
  destruct (transfer_record_decodes B C 3 eq_refl eq_refl eq_refl) as (_ & H).
  exact H.
Defined.

(** ** Invariants of the stores *)

(** X7.  In every reachable state every balance and every aggregate is a
    [uint64]: no account's [credits_owned] or [credits_retired] and none of
    the three counters ever leaves [0, 2^64), and no local value is a byte
    string. *)
Theorem reachable_counters_u64 s a :
  reachable s ->
  balance_of s a < two64 /\
  retired_of s a < two64 /\
  global_uint s total_projects < two64 /\
  global_uint s total_credits_issued < two64 /\
  global_uint s total_credits_retired < two64 /\
  (forall k v, locals s !! k = Some v -> exists n, v = Uint n).
Proof.
  intros Hs%reachable_wf. repeat split_and.
  - apply (wf_local_uint s a user_credits_owned Hs).
  - apply (wf_local_uint s a user_credits_retired Hs).
  - apply wf_global_bound, (wf_total_projects s Hs).
  - apply wf_global_bound, (wf_total_credits_issued s Hs).
  - apply wf_global_bound, (wf_total_credits_retired s Hs).
  - intros k v Hk. destruct (wf_locals s Hs k v Hk) as (n & -> & _). by exists n.
Qed.

Lemma reachable_counters_u64_witness :
  balance_of B_has_5 B < two64 /\ retired_of B_has_5 B < two64.
Proof.
  destruct (reachable_counters_u64 B_has_5 B reachable_B_has_5) as (H1 & H2 & _).
  split; [exact H1 | exact H2].
Defined.

(** X8.  A call touches the local values of its sender and, for a transfer,
    of the recipient only: every other account's local values are the same
    after the call, approved or rejected. *)
Theorem other_accounts_untouched s c m a k :
  a <> sender c ->
  call_recipient m <> Some a ->
  locals (step s c m) !! (a, k) = locals s !! (a, k).
Proof.
  intros Hs Hr. unfold step.
  destruct (route c m s) as [[o s']|e] eqn:E; [|done].
  destruct m; cbn [call_recipient] in Hr.
  - rewrite route_initialize, initialize_marketplace_eq in E.
    by repeat case_match; simplify_eq.
  - rewrite route_register, register_project_eq in E.
    by repeat case_match; simplify_eq.
  - rewrite route_purchase_eq in E.
    repeat case_match; simplify_eq. cbn [locals].
    by rewrite lookup_insert_ne by congruence.
  - rewrite route_retire, retire_credits_eq in E.
    repeat case_match; simplify_eq. cbn [locals].
    by rewrite !lookup_insert_ne by congruence.
  - rewrite route_transfer, transfer_credits_eq in E.
    repeat case_match; simplify_eq. cbn [locals].
    by rewrite !lookup_insert_ne by congruence.
  - apply route_query_state in E; [by subst | done].
  - apply route_query_state in E; [by subst | done].
  - apply opt_in_frame in E as (Hl & _ & _). by rewrite Hl.
  - rewrite route_close_out in E. case_match; simplify_eq. cbn [locals].
    by apply forget_lookup_ne.
  - rewrite route_clear_state, route_close_out in E. case_match; simplify_eq.
    cbn [locals]. by apply forget_lookup_ne.
Qed.

Lemma other_accounts_untouched_witness :
  locals (step B_has_5 (tx B 4) (TransferCredits C 3)) !! (admin_A, user_credits_owned)
    = locals B_has_5 !! (admin_A, user_credits_owned).
Proof.
  apply other_accounts_untouched; vm_compute; discriminate.
Defined.

(** X9.  [purchase_credits], [retire_credits] and [transfer_credits] write
    no global key other than their audit record and, for a retirement,
    [total_credits_retired]: project records, [total_projects],
    [total_credits_issued], the fee and the admin are as before. *)
Theorem credit_moves_keep_registry s c m k :
  moves_credits m = true ->
  is_audit_key k = false ->
  k <> total_credits_retired ->
  globals (step s c m) !! k = globals s !! k.
Proof.
  intros Hm HK Hk. unfold step.
  destruct (route c m s) as [[o s']|e] eqn:E; [|done].
  destruct m; try discriminate.
  - rewrite route_purchase_eq in E.
    repeat case_match; simplify_eq. cbn [globals].
    rewrite lookup_insert_ne; [done|]. intros <-.
    by rewrite purchase_key_audit in HK.
  - rewrite route_retire, retire_credits_eq in E.
    repeat case_match; simplify_eq. cbn [globals].
    rewrite lookup_insert_ne; [by rewrite lookup_insert_ne|]. intros <-.
    by rewrite retirement_key_audit in HK.
  - rewrite route_transfer, transfer_credits_eq in E.
    repeat case_match; simplify_eq. cbn [globals].
    rewrite lookup_insert_ne; [done|]. intros <-.
    by rewrite transfer_key_audit in HK.
Qed.

Lemma credit_moves_keep_registry_witness :
  globals (step with_forest (tx B 3) (PurchaseCredits 0 10 (pay 10000000)))
    !! project_key 0 = globals with_forest !! project_key 0.
Proof.
  apply credit_moves_keep_registry; [reflexivity | reflexivity |].
  vm_compute. discriminate.
Defined.

(** X10.  Only [initialize_marketplace] writes the config: after any other
    call the stored admin and fee are what they were. *)
Theorem config_written_by_initialize_only s c m :
  is_initialize m = false ->
  globals (step s c m) !! admin_address = globals s !! admin_address /\
  globals (step s c m) !! marketplace_fee = globals s !! marketplace_fee.
Proof.
  intros Hm. unfold step.
  destruct (route c m s) as [[o s']|e] eqn:E; [|done].
  destruct m; try discriminate.
  - rewrite route_register, register_project_eq in E.
    repeat case_match; simplify_eq. cbn [globals].
    by rewrite !lookup_insert_ne by key_neq.
  - rewrite route_purchase_eq in E.
    repeat case_match; simplify_eq. cbn [globals].
    by rewrite !lookup_insert_ne by key_neq.
  - rewrite route_retire, retire_credits_eq in E.
    repeat case_match; simplify_eq. cbn [globals].
    by rewrite !lookup_insert_ne by key_neq.
  - rewrite route_transfer, transfer_credits_eq in E.
    repeat case_match; simplify_eq. cbn [globals].
    by rewrite !lookup_insert_ne by key_neq.
  - apply route_query_state in E; [by subst | done].
  - apply route_query_state in E; [by subst | done].
  - apply opt_in_frame in E as (_ & _ & Hg). by rewrite Hg.
  - apply close_out_sums in E as (_ & Hg & _). by rewrite Hg.
  - rewrite route_clear_state in E.
    apply close_out_sums in E as (_ & Hg & _). by rewrite Hg.
Qed.

Lemma config_written_by_initialize_only_witness :
  globals (step initialized (tx admin_A 2) (RegisterProject "Forest X" 1 1 1000 50 2023))
    !! admin_address = globals initialized !! admin_address.
Proof.
  apply (config_written_by_initialize_only initialized (tx admin_A 2)). reflexivity.
Defined.

(** X11.  Registered projects are immutable as long as the marketplace is
    not initialized again: a call other than [initialize_marketplace] leaves
    the record of every project id below [total_projects] as it was, and
    [total_projects] does not decrease. *)
Theorem registered_projects_immutable s c m i :
  is_initialize m = false ->
  i < global_uint s total_projects ->
  globals (step s c m) !! project_key i = globals s !! project_key i /\
  global_uint s total_projects <= global_uint (step s c m) total_projects.
Proof.
  intros Hm Hi. unfold step.
  destruct (route c m s) as [[o s']|e] eqn:E; [|done].
  destruct m; try discriminate.
  - rewrite route_register, register_project_eq in E.
    repeat case_match; simplify_eq. ltb_facts.
    match goal with
    | H : default _ (globals s !! total_projects) = Uint ?x |- _ =>
        apply global_uint_of in H; rename H into Hn, x into n end.
    rewrite Hn in Hi.
    rewrite global_uint_put_ne, global_uint_put by key_neq. cbn [globals].
    split; [|lia].
    rewrite !lookup_insert_ne; [done|..]; try key_neq.
    intros Heq. apply project_key_inj in Heq; u64_lia.
  - rewrite route_purchase_eq in E.
    repeat case_match; simplify_eq.
    rewrite global_uint_put_ne by key_neq. cbn [globals].
    rewrite lookup_insert_ne by key_neq. by destruct s.
  - rewrite route_retire, retire_credits_eq in E.
    repeat case_match; simplify_eq.
    rewrite !global_uint_put_ne by key_neq. cbn [globals].
    rewrite !lookup_insert_ne by key_neq. by destruct s.
  - rewrite route_transfer, transfer_credits_eq in E.
    repeat case_match; simplify_eq.
    rewrite global_uint_put_ne by key_neq. cbn [globals].
    rewrite lookup_insert_ne by key_neq. by destruct s.
  - apply route_query_state in E; [by subst | done].
  - apply route_query_state in E; [by subst | done].
  - apply opt_in_frame in E as (_ & _ & Hg).
    rewrite (global_uint_frame s s') by (by rewrite Hg). by rewrite Hg.
  - apply close_out_sums in E as (_ & Hg & _).
    rewrite (global_uint_frame s s') by (by rewrite Hg). by rewrite Hg.
  - rewrite route_clear_state in E. apply close_out_sums in E as (_ & Hg & _).
    rewrite (global_uint_frame s s') by (by rewrite Hg). by rewrite Hg.
Qed.

Lemma registered_projects_immutable_witness :
  globals (step with_forest (tx admin_A 3) (RegisterProject "Wind Y" 2 1 500 70 2024))
    !! project_key 0 = globals with_forest !! project_key 0.
Proof.
  apply (registered_projects_immutable with_forest (tx admin_A 3)
           (RegisterProject "Wind Y" 2 1 500 70 2024) 0);
    vm_compute; reflexivity.
Defined.

(** ** Effects of an approved registration *)

(** X12.  An approved [register_project] returns no value, stores the record
    under the id [total_projects] had before the call, raises
    [total_projects] by one and [total_credits_issued] by [total_credits],
    and leaves [total_credits_retired] and every local value as they were.
    There is no check that [total_credits] or [price_per_credit] is
    positive. *)
Theorem register_project_effects s c name ty std tc price vint o s' :
  route c (RegisterProject name ty std tc price vint) s = Ok (o, s') ->
  o = NoOutput /\
  globals s' !! project_key (global_uint s total_projects)
    = Some (Bytes (project_record name ty std tc price vint)) /\
  global_uint s' total_projects = global_uint s total_projects + 1 /\
  global_uint s' total_credits_issued = global_uint s total_credits_issued + tc /\
  project_total_credits s' (global_uint s total_projects) = tc /\
  global_uint s' total_credits_retired = global_uint s total_credits_retired /\
  locals s' = locals s.
Proof.
  rewrite route_register, register_project_eq. intros E.
  repeat case_match; simplify_eq. ltb_facts.
  repeat match goal with
  | H : default _ (globals s !! _) = Uint _ |- _ => apply global_uint_of in H
  end.
  repeat match goal with H : global_uint s _ = _ |- _ => rewrite H end.
  repeat split_and; try done.
  - cbn [globals]. by rewrite !lookup_insert_ne, lookup_insert_eq by key_neq.
  - by rewrite global_uint_put_ne, global_uint_put by key_neq.
  - by rewrite global_uint_put.
  - unfold project_total_credits. cbn [globals].
    rewrite !lookup_insert_ne, lookup_insert_eq by key_neq.
    apply record_total_credits_project_record. u64_lia.
  - rewrite !global_uint_put_ne by key_neq. by destruct s.
Qed.

Lemma register_project_effects_witness :
  globals with_forest !! project_key 0
    = Some (Bytes (project_record "Forest X" 1 1 1000 50 2023)) /\
  global_uint with_forest total_projects = global_uint initialized total_projects + 1 /\
  global_uint with_forest total_credits_issued
    = global_uint initialized total_credits_issued + 1000.
Proof.
  assert (route (tx admin_A 2) (RegisterProject "Forest X" 1 1 1000 50 2023) initialized
          = Ok (NoOutput, with_forest)) as E by (vm_compute; reflexivity).
  destruct (register_project_effects _ _ _ _ _ _ _ _ _ _ E) as (_ & H1 & H2 & H3 & _).
  split; [exact H1 | split; [exact H2 | exact H3]].
Defined.

(** ** The supply of credits *)

(** X13.  Credits enter the ledger through purchases only and leave it only
    when an account closes out or clears its state: for every call, approved
    or rejected, the sum of [credits_owned] plus the sum of [credits_retired]
    over all accounts grows by the quantity of an approved purchase, shrinks
    by what an account that closes out or clears its state held, and is
    otherwise unchanged; the sum of [credits_retired] grows by the quantity
    of an approved retirement, shrinks by the retired credits of an account
    that closes out or clears its state, and is otherwise unchanged.  In
    particular a transfer, also to oneself, keeps both sums. *)
Theorem credit_supply_step s c m :
  sum_credits_owned (step s c m) + sum_credits_retired (step s c m)
      + forfeited_by c m s
    = sum_credits_owned s + sum_credits_retired s + purchased_by c m s /\
  sum_credits_retired (step s c m)
      + (if is_close_out m && is_opted s (sender c)
         then retired_of s (sender c) else 0)
    = sum_credits_retired s + retired_by c m s.
Proof.
  unfold step, purchased_by, retired_by, forfeited_by.
  destruct m; cbn [is_close_out andb].
  - destruct (route c _ s) as [[o s']|e] eqn:E; [|split; lia].
    apply initialize_sums in E as (Hl & _).
    rewrite (sum_credits_retired_frame s s'), (sum_credits_owned_frame s s') by done.
    split; lia.
  - destruct (route c _ s) as [[o s']|e] eqn:E; [|split; lia].
    apply register_frame in E as (Hl & _).
    rewrite (sum_credits_retired_frame s s'), (sum_credits_owned_frame s s') by done.
    split; lia.
  - destruct (route c _ s) as [[o s']|e] eqn:E; cbn [is_approved]; [|split; lia].
    apply purchase_sums in E as ([Ho Hr] & _). split; lia.
  - destruct (route c _ s) as [[o s']|e] eqn:E; cbn [is_approved]; [|split; lia].
    apply retire_sums in E as ([Ho Hr] & _). split; lia.
  - destruct (route c _ s) as [[o s']|e] eqn:E; [|split; lia].
    apply transfer_sums in E as ([Ho Hr] & _). split; lia.
  - destruct (route c _ s) as [[o s']|e] eqn:E; [|split; lia].
    apply route_query_state in E; [subst; split; lia | done].
  - destruct (route c _ s) as [[o s']|e] eqn:E; [|split; lia].
    apply route_query_state in E; [subst; split; lia | done].
  - destruct (route c _ s) as [[o s']|e] eqn:E; [|split; lia].
    apply opt_in_frame in E as (Hl & _).
    rewrite (sum_credits_retired_frame s s'), (sum_credits_owned_frame s s') by done.
    split; lia.
  - destruct (route c CloseOut s) as [[o s']|e] eqn:E.
    + pose proof E as E'. rewrite route_close_out in E'.
      destruct (is_opted s (sender c)); [|done].
      apply close_out_sums in E as ([Ho Hr] & _). split; lia.
    + rewrite route_close_out in E.
      destruct (is_opted s (sender c)); [done|]. split; lia.
  - rewrite route_clear_state.
    destruct (route c CloseOut s) as [[o s']|e] eqn:E.
    + pose proof E as E'. rewrite route_close_out in E'.
      destruct (is_opted s (sender c)); [|done].
      apply close_out_sums in E as ([Ho Hr] & _). split; lia.
    + rewrite route_close_out in E.
      destruct (is_opted s (sender c)); [done|]. split; lia.
Qed.

(** X14.  Retirement is irreversible while the account stays in the
    application: no call, [initialize_marketplace] included, lowers an
    account's [credits_retired], except the account's own close-out or
    clear-state. *)
Theorem credits_retired_never_decrease s c m a :
  is_close_out m = false \/ a <> sender c ->
  retired_of s a <= retired_of (step s c m) a.
Proof.
  intros Hm. unfold step.
  destruct (route c m s) as [[o s']|e] eqn:E; [|done].
  assert (forall s0, route c CloseOut s = Ok (o, s0) -> a <> sender c ->
            retired_of s a <= retired_of s0 a) as Hclose.
  { intros s0 E0 Hne. rewrite route_close_out in E0. case_match; simplify_eq.
    unfold retired_of, local_uint. cbn [locals].
    by rewrite forget_lookup_ne. }
  destruct m.
  - rewrite route_initialize, initialize_marketplace_eq in E.
    by repeat case_match; simplify_eq.
  - rewrite route_register, register_project_eq in E.
    by repeat case_match; simplify_eq.
  - rewrite route_purchase_eq in E.
    repeat case_match; simplify_eq. destruct s as [g l o0 p0]. unfold retired_of.
    by rewrite local_uint_put_ne by key_neq.
  - rewrite route_retire, retire_credits_eq in E.
    repeat case_match; simplify_eq. destruct s as [g l o0 p0]. unfold retired_of.
    cbn [locals] in *.
    destruct (decide (a = sender c)) as [->|Hne].
    + rewrite local_uint_put. unfold local_uint. cbn [locals].
      match goal with
      | H : default _ (l !! (_, user_credits_retired)) = _ |- _ => rewrite H end.
      cbn [uint_of]. lia.
    + by rewrite !local_uint_put_ne by congruence.
  - rewrite route_transfer, transfer_credits_eq in E.
    repeat case_match; simplify_eq. destruct s as [g l o0 p0]. unfold retired_of.
    by rewrite !local_uint_put_ne by key_neq.
  - apply route_query_state in E; [by subst | done].
  - apply route_query_state in E; [by subst | done].
  - apply opt_in_frame in E as (Hl & _). unfold retired_of, local_uint.
    by rewrite Hl.
  - destruct Hm as [Hm|Hne]; [discriminate|]. by apply Hclose.
  - destruct Hm as [Hm|Hne]; [discriminate|]. by apply Hclose.
Qed.

Lemma credits_retired_never_decrease_witness :
  retired_of B_retired_10 B <= retired_of reinitialized B.
Proof.
  apply (credits_retired_never_decrease B_retired_10 (tx deployer 5)
           (InitializeMarketplace 250 C) B).
  left. reflexivity.
Defined.

(** X20.  Every credit is paid for: in every reachable state the credits in
    the accounts, owned and retired, times the price of 1000000 are at most
    what the application has received, which is below [2^64]; the same holds
    for the credits owned together with [total_credits_retired].  So no
    balance and no sum of balances can reach [2^64 / 1000000]. *)
Theorem credits_backed_by_payments s a :
  reachable s ->
  1000000 * (sum_credits_owned s + sum_credits_retired s) <= paid_in s /\
  1000000 * (sum_credits_owned s + global_uint s total_credits_retired)
    <= paid_in s /\
  paid_in s < two64 /\
  1000000 * (balance_of s a + retired_of s a) <= paid_in s.
Proof.
  intros Hs. destruct (reachable_backed s Hs) as (H1 & H2 & H3).
  repeat split_and; try done.
  pose proof (balance_of_le_sum s a). pose proof (retired_of_le_sum s a). lia.
Qed.

Lemma credits_backed_by_payments_witness :
  1000000 * (balance_of B_retired_10 B + retired_of B_retired_10 B)
    <= paid_in B_retired_10.
Proof.
  destruct (credits_backed_by_payments B_retired_10 B reachable_B_retired_10)
    as (_ & _ & _ & H).
  exact H.
Defined.

(** ** Opting in and closing out *)

Lemma is_opted_mk g l o p a : is_opted (mkState g l o p) a = bool_decide (a ∈ o).
Proof. reflexivity. Qed.





(** ** Calls in sequence and at the edges *)





(** X17.  Credits cannot be retired twice: in a reachable state, after an
    approved [retire_credits] of [q] credits that are more than half of the
    sender's balance, a second [retire_credits] of [q] by the same sender is
    rejected with [InsufficientBalance]. *)
Theorem retire_twice_rejected s c c' q reason beneficiary reason' beneficiary' :
  reachable s ->
  sender c' = sender c ->
  balance_of s (sender c) < q + q ->
  is_approved (route c (RetireCredits q reason beneficiary) s) = true ->
  route c' (RetireCredits q reason' beneficiary')
    (step s c (RetireCredits q reason beneficiary)) = Err InsufficientBalance.
Proof.
  intros Hr Hc Hhalf Happ.
  pose proof (reach_step s c (RetireCredits q reason beneficiary) Hr) as Hr1.
  rewrite (retire_credits_reach _ c') by exact Hr1. clear Hr1.
  rewrite Hc. revert Happ. unfold step.
  rewrite retire_credits_reach by done.
  destruct (is_opted s (sender c)) eqn:Ho; [|done].
  destruct (q <=? balance_of s (sender c)) eqn:Hq; [|done].
  destruct (fits _ _); [|done]. intros _.
  rewrite is_opted_mk. fold (is_opted s (sender c)). rewrite Ho.
  destruct s as [g l o p]. unfold balance_of at 1.
  rewrite local_uint_put_ne, local_uint_put by key_neq.
  apply N.leb_le in Hq.
  assert ((q <=? balance_of (mkState g l o p) (sender c) - q) = false) as ->
    by (apply N.leb_gt; lia).
  done.
Qed.

Lemma retire_twice_rejected_witness :
  route (tx B 5) (RetireCredits 10 "offset 2024" "Acme Corp") B_retired_10
    = Err InsufficientBalance.
Proof.
  apply (retire_twice_rejected B_has_10 (tx B 4) (tx B 5) 10
           "offset 2024" "Acme Corp" "offset 2024" "Acme Corp").
  - apply reachable_B_has_10.
  - reflexivity.
  - vm_compute. reflexivity.
  - vm_compute. reflexivity.
Defined.

(** X18.  Of two [initialize_marketplace] calls in a row with the same
    context, only one leaves a trace: the second when its admin fits in the
    store (at most 115 bytes; an address has 32), and then the state after
    both is the state after the second alone; otherwise the second is
    rejected and the state is the state after the first.  In particular the
    call is idempotent. *)
Theorem initialize_last_wins s c fee1 admin1 fee2 admin2 :
  step (step s c (InitializeMarketplace fee1 admin1)) c
       (InitializeMarketplace fee2 admin2)
  = if Nat.leb (String.length admin2) 115
    then step s c (InitializeMarketplace fee2 admin2)
    else step s c (InitializeMarketplace fee1 admin1).
Proof.
  unfold step. rewrite !route_initialize, !initialize_marketplace_eq.
  destruct (String.eqb (sender c) (creator_address c)); [|by if_cases].
  rewrite !fits_admin.
  destruct (Nat.leb (String.length admin2) 115); [|done].
  destruct (Nat.leb (String.length admin1) 115); [|done].
  cbn [globals locals opted_in paid_in]. f_equal.
  apply map_eq. intros k.
  destruct (decide (k = total_credits_retired)) as [->|?];
    [by rewrite !lookup_insert_eq
    |rewrite !(lookup_insert_ne _ total_credits_retired) by done].
  destruct (decide (k = total_credits_issued)) as [->|?];
    [by rewrite !lookup_insert_eq
    |rewrite !(lookup_insert_ne _ total_credits_issued) by done].
  destruct (decide (k = total_projects)) as [->|?];
    [by rewrite !lookup_insert_eq
    |rewrite !(lookup_insert_ne _ total_projects) by done].
  destruct (decide (k = admin_address)) as [->|?];
    [by rewrite !lookup_insert_eq
    |rewrite !(lookup_insert_ne _ admin_address) by done].
  destruct (decide (k = marketplace_fee)) as [->|?];
    [by rewrite !lookup_insert_eq
    |rewrite !(lookup_insert_ne _ marketplace_fee) by done].
  by rewrite !lookup_insert_ne by done.
Qed.




